(** * isatools.model.v1: the ISA object model, its graph builder and its
      batch generators, embedded over an explicit Python object store.

    Objects live in a store indexed by their identity; attribute access goes
    through the class's properties first and the instance dictionary
    second, as in Python.  Functions that read or write objects are
    computations in a state-and-exception monad over the store. *)

From stdpp Require Import gmap strings list pretty.

Open Scope string_scope.
Open Scope list_scope.
Open Scope nat_scope.

(** ** Values and objects *)

Abbreviation addr := nat.

(** Python values: [None], integers, floats (the finite binary float
    [m * 2^e]), text, and references to objects of the store. *)
Inductive val :=
| VNone
| VInt (z : Z)
| VFloat (m e : Z)
| VStr (s : string)
| VRef (a : addr).

#[global] Instance val_eq_dec : EqDecision val.
Proof. solve_decision. Defined.

(** The classes of the module. *)
Inductive cls :=
| Comment | Commentable | Investigation | OntologySource | OntologyAnnotation
| Publication | Person | Study | StudyFactor | Assay | Protocol
| ProtocolParameter | ProtocolComponent | Source | Characteristic | Sample
| Material | Extract | LabeledExtract | FactorValue | Process | DataFile
| ParameterValue.

#[global] Instance cls_eq_dec : EqDecision cls.
Proof. solve_decision. Defined.

(** An instance dictionary, in insertion order. *)
Abbreviation attrs := (list (string * val)).

Inductive obj :=
| OList (vs : list val)
| ODict (kvs : list (val * val))
| OInst (c : cls) (d : attrs).

(** The store: the object with identity [a] is the [a]-th entry. *)
Abbreviation heap := (list obj).

Fixpoint attr_get (k : string) (d : attrs) : option val :=
  match d with
  | [] => None
  | (k', v) :: d' => if decide (k = k') then Some v else attr_get k d'
  end.

Fixpoint attr_set (k : string) (v : val) (d : attrs) : attrs :=
  match d with
  | [] => [(k, v)]
  | (k', v') :: d' =>
      if decide (k = k') then (k, v) :: d' else (k', v') :: attr_set k v d'
  end.

(** ** Classes *)

(** The direct base class; [None] stands for [object]. *)
Definition base (c : cls) : option cls :=
  match c with
  | Comment | Commentable | ParameterValue => None
  | Extract => Some Material
  | LabeledExtract => Some Extract
  | _ => Some Commentable
  end.

Fixpoint mro_from (depth : nat) (c : cls) : list cls :=
  c :: match depth, base c with
       | S k, Some b => mro_from k b
       | _, _ => []
       end.

(** Method resolution order; the deepest chain of the module is
    LabeledExtract, Extract, Material, Commentable. *)
Definition mro (c : cls) : list cls := mro_from 3 c.

Definition issubclass (c c' : cls) : bool := bool_decide (c' ∈ mro c).

Definition isinstance (h : heap) (v : val) (cs : list cls) : bool :=
  match v with
  | VRef a =>
      match h !! a with
      | Some (OInst c _) => existsb (issubclass c) cs
      | _ => false
      end
  | _ => false
  end.

Definition is_list (h : heap) (v : val) : bool :=
  match v with
  | VRef a => match h !! a with Some (OList _) => true | _ => false end
  | _ => false
  end.

(** ** The monad of store computations *)

Inductive exn := AttributeError | TypeError | ValidationFailure.

(** Besides Python exceptions a run of the model can stop because the fuel
    of [deepcopy] ran out or because a reference points outside the store;
    neither happens in a well-formed store with enough fuel. *)
Inductive err := PyExc (e : exn) | OutOfFuel | Dangling.

Inductive outcome (A : Type) :=
| Ok (a : A)
| Err (e : err).
Arguments Ok {A} a.
Arguments Err {A} e.

Definition M (A : Type) : Type := heap → outcome A * heap.

Definition ret {A} (a : A) : M A := λ h, (Ok a, h).

Definition bind {A B} (m : M A) (k : A → M B) : M B :=
  λ h, match m h with
       | (Ok a, h') => k a h'
       | (Err e, h') => (Err e, h')
       end.

Definition raise {A} (e : exn) : M A := λ h, (Err (PyExc e), h).

Notation "x <- m ;; k" := (bind m (λ x, k))
  (at level 20, m at level 99, k at level 200, only parsing).
Notation "m ;; k" := (bind m (λ _, k))
  (at level 100, k at level 200, only parsing, right associativity).

Definition get_obj (a : addr) : M obj :=
  λ h, match h !! a with
       | Some o => (Ok o, h)
       | None => (Err Dangling, h)
       end.

Definition put_obj (a : addr) (o : obj) : M unit :=
  λ h, (Ok tt, <[a := o]> h).

Definition alloc (o : obj) : M addr :=
  λ h, (Ok (length h), h ++ [o]).

(** [for x in xs: body(x)], stopping at the first exception. *)
Fixpoint for_each {A} (xs : list A) (body : A → M unit) : M unit :=
  match xs with
  | [] => ret tt
  | x :: xs' => body x ;; for_each xs' body
  end.

(** ** Truth value, text *)

(** [bool(v)]: the classes of the module define neither [__bool__] nor
    [__len__], so their instances are true. *)
Definition truthy (v : val) : M bool :=
  match v with
  | VNone => ret false
  | VInt z => ret (negb (Z.eqb z 0))
  | VFloat m _ => ret (negb (Z.eqb m 0))
  | VStr s => ret (negb (String.eqb s EmptyString))
  | VRef a =>
      o <- get_obj a ;;
      match o with
      | OList vs => ret (negb (bool_decide (vs = [])))
      | ODict kvs => ret (negb (bool_decide (length kvs = 0)))
      | OInst _ _ => ret true
      end
  end.

(** [str(x)] for an integer. *)
Definition str (z : Z) : string := pretty z.

Fixpoint texts (vs : list val) : option (list string) :=
  match vs with
  | [] => Some []
  | VStr s :: vs' => cons s <$> texts vs'
  | _ :: _ => None
  end.

(** [sep.join(vs)]: every item must be text. *)
Definition join (sep : string) (vs : list val) : M val :=
  match texts vs with
  | Some ss => ret (VStr (String.concat sep ss))
  | None => raise TypeError
  end.

(** ** Validated properties *)

Inductive pytype :=
| T_text | T_int | T_float | T_None | T_list | T_class (c : cls).

Definition has_type (h : heap) (v : val) (t : pytype) : bool :=
  match t, v with
  | T_text, VStr _ => true
  | T_int, VInt _ => true
  | T_float, VFloat _ _ => true
  | T_None, VNone => true
  | T_list, _ => is_list h v
  | T_class c, _ => isinstance h v [c]
  | _, _ => false
  end.

(** Modelled from the spec: the decorator [accepts] of [isatools.model.utils],
    which is not among the sources.  A setter it guards fails with a
    validation failure when the assigned value's type is outside the declared
    set, or when the value is empty text and [allow_empty] is false;
    otherwise the setter's body runs. *)
Definition accepts (types : list pytype) (allow_empty : bool) (v : val) : M unit :=
  λ h, if existsb (has_type h v) types
       then if negb allow_empty && bool_decide (v = VStr EmptyString)
            then (Err (PyExc ValidationFailure), h)
            else (Ok tt, h)
       else (Err (PyExc ValidationFailure), h).

(** [self.__dict__[k]], an [AttributeError] when the key is absent. *)
Definition load (a : addr) (k : string) : M val :=
  o <- get_obj a ;;
  match o with
  | OInst _ d =>
      match attr_get k d with
      | Some v => ret v
      | None => raise AttributeError
      end
  | _ => raise AttributeError
  end.

(** [self.__dict__[k] = v] *)
Definition store (a : addr) (k : string) (v : val) : M unit :=
  o <- get_obj a ;;
  match o with
  | OInst c d => put_obj a (OInst c (attr_set k v d))
  | _ => raise AttributeError
  end.

Record property := { fget : addr → M val; fset : addr → val → M unit }.

(** [Comment]: [name] is required text, [value] reads back as [None] when the
    stored value is false. *)
Definition Comment_name : property :=
  {| fget := λ self, load self "_Comment__name";
     fset := λ self name,
       accepts [T_text; T_None] false name ;;
       store self "_Comment__name" name |}.

Definition Comment_value : property :=
  {| fget := λ self,
       v <- load self "_Comment__value" ;;
       b <- truthy v ;;
       if negb b then ret VNone else load self "_Comment__value";
     fset := λ self value,
       accepts [T_text; T_int; T_float; T_None] true value ;;
       store self "_Comment__value" value |}.

Definition Commentable_comments : property :=
  {| fget := λ self, load self "_Commentable__comments";
     fset := λ self comments,
       accepts [T_list; T_None] true comments ;;
       store self "_Commentable__comments" comments |}.

Definition OntologySource_name : property :=
  {| fget := λ self, load self "_OntologySource__name";
     fset := λ self name,
       accepts [T_text; T_None] false name ;;
       store self "_OntologySource__name" name |}.

Definition OntologySource_file : property :=
  {| fget := λ self,
       v <- load self "_OntologySource__file" ;;
       b <- truthy v ;;
       if negb b then ret VNone else load self "_OntologySource__file";
     fset := λ self file,
       accepts [T_text; T_None] true file ;;
       store self "_OntologySource__file" file |}.

Definition OntologySource_version : property :=
  {| fget := λ self,
       v <- load self "_OntologySource__version" ;;
       b <- truthy v ;;
       if negb b then ret VNone else load self "_OntologySource__version";
     fset := λ self version,
       accepts [T_text; T_None] true version ;;
       store self "_OntologySource__version" version |}.

Definition OntologySource_description : property :=
  {| fget := λ self,
       v <- load self "_OntologySource__description" ;;
       b <- truthy v ;;
       if negb b then ret VNone else load self "_OntologySource__description";
     fset := λ self description,
       accepts [T_text; T_None] true description ;;
       store self "_OntologySource__description" description |}.

Definition OntologyAnnotation_term : property :=
  {| fget := λ self,
       v <- load self "_OntologyAnnotation__term" ;;
       b <- truthy v ;;
       if negb b then ret VNone else load self "_OntologyAnnotation__term";
     fset := λ self term,
       accepts [T_text; T_None] true term ;;
       store self "_OntologyAnnotation__term" term |}.

Definition OntologyAnnotation_term_source : property :=
  {| fget := λ self, load self "_OntologyAnnotation__term_source";
     fset := λ self term_source,
       accepts [T_class OntologySource; T_None] true term_source ;;
       store self "_OntologyAnnotation__term_source" term_source |}.

(** The getter tests the stored term, not the stored accession. *)
Definition OntologyAnnotation_term_accession : property :=
  {| fget := λ self,
       v <- load self "_OntologyAnnotation__term" ;;
       b <- truthy v ;;
       if negb b then ret VNone
       else load self "_OntologyAnnotation__term_accession";
     fset := λ self term_accession,
       accepts [T_text; T_None] true term_accession ;;
       store self "_OntologyAnnotation__term_accession" term_accession |}.

(** The properties a class body binds.  [Publication] binds none: its
    property definitions sit inside [__init__], where they are local names. *)
Definition properties (c : cls) : list (string * property) :=
  match c with
  | Comment => [("name", Comment_name); ("value", Comment_value)]
  | Commentable => [("comments", Commentable_comments)]
  | OntologySource =>
      [("name", OntologySource_name); ("file", OntologySource_file);
       ("version", OntologySource_version);
       ("description", OntologySource_description)]
  | OntologyAnnotation =>
      [("term", OntologyAnnotation_term);
       ("term_source", OntologyAnnotation_term_source);
       ("term_accession", OntologyAnnotation_term_accession)]
  | _ => []
  end.

Fixpoint assoc {A} (k : string) (l : list (string * A)) : option A :=
  match l with
  | [] => None
  | (k', x) :: l' => if decide (k = k') then Some x else assoc k l'
  end.

Fixpoint find_in_classes (cs : list cls) (name : string) : option property :=
  match cs with
  | [] => None
  | c :: cs' =>
      match assoc name (properties c) with
      | Some p => Some p
      | None => find_in_classes cs' name
      end
  end.

Definition find_property (c : cls) (name : string) : option property :=
  find_in_classes (mro c) name.

(** [v.name]: a property of the class wins over the instance dictionary.
    Only instances carry data attributes. *)
Definition getattr (v : val) (name : string) : M val :=
  match v with
  | VRef a =>
      o <- get_obj a ;;
      match o with
      | OInst c d =>
          match find_property c name with
          | Some p => fget p a
          | None =>
              match attr_get name d with
              | Some x => ret x
              | None => raise AttributeError
              end
          end
      | _ => raise AttributeError
      end
  | _ => raise AttributeError
  end.

(** [v.name = x] *)
Definition setattr (v : val) (name : string) (x : val) : M unit :=
  match v with
  | VRef a =>
      o <- get_obj a ;;
      match o with
      | OInst c d =>
          match find_property c name with
          | Some p => fset p a x
          | None => put_obj a (OInst c (attr_set name x d))
          end
      | _ => raise AttributeError
      end
  | _ => raise AttributeError
  end.

(** [l.append(x)]: only list objects have [append]. *)
Definition append (l : val) (x : val) : M unit :=
  match l with
  | VRef a =>
      o <- get_obj a ;;
      match o with
      | OList vs => put_obj a (OList (vs ++ [x]))
      | _ => raise AttributeError
      end
  | _ => raise AttributeError
  end.

(** [for x in v], for the iterables of the model: a list yields its items, a
    dictionary its keys, text its characters. *)
Fixpoint chars (s : string) : list val :=
  match s with
  | EmptyString => []
  | String c s' => VStr (String c EmptyString) :: chars s'
  end.

Definition iter (v : val) : M (list val) :=
  match v with
  | VStr s => ret (chars s)
  | VRef a =>
      o <- get_obj a ;;
      match o with
      | OList vs => ret vs
      | ODict kvs => ret (kvs.*1)
      | OInst _ _ => raise TypeError
      end
  | _ => raise TypeError
  end.

(** ** Constructors *)

(** [cls(...)]: a fresh instance with an empty dictionary, then [__init__]. *)
Definition new (c : cls) (init : addr → M unit) : M val :=
  self <- alloc (OInst c []) ;;
  init self ;;
  ret (VRef self).

Definition list_ : M val := a <- alloc (OList []) ;; ret (VRef a).
Definition dict_ : M val := a <- alloc (ODict []) ;; ret (VRef a).

(** [x if x is not None else default()] as the constructors spell it. *)
Definition or_else (x : val) (mk : M val) : M val :=
  match x with VNone => mk | _ => ret x end.

Definition Comment_init (name value : val) (self : addr) : M unit :=
  setattr (VRef self) "name" name ;;
  setattr (VRef self) "value" value.

Definition Commentable_init (comments : val) (self : addr) : M unit :=
  setattr (VRef self) "comments" comments.

Definition OntologyAnnotation_init
    (term term_source term_accession comments id_ : val) (self : addr) : M unit :=
  Commentable_init comments self ;;
  setattr (VRef self) "term" term ;;
  setattr (VRef self) "term_source" term_source ;;
  setattr (VRef self) "term_accession" term_accession ;;
  setattr (VRef self) "id" id_.

(** [OntologyAnnotation()] with every default. *)
Definition OntologyAnnotation_default : M val :=
  new OntologyAnnotation
    (OntologyAnnotation_init VNone VNone VNone VNone (VStr EmptyString)).

(** The five assignments go to the instance dictionary; the property objects
    built afterwards are bound to local names and dropped on return. *)
Definition Publication_init
    (pubmed_id doi author_list title status comments : val) (self : addr) : M unit :=
  Commentable_init comments self ;;
  setattr (VRef self) "pubmed_id" pubmed_id ;;
  setattr (VRef self) "doi" doi ;;
  setattr (VRef self) "author_list" author_list ;;
  setattr (VRef self) "title" title ;;
  setattr (VRef self) "status" status.

Definition Protocol_init
    (id_ name protocol_type uri description version parameters components
     comments : val) (self : addr) : M unit :=
  Commentable_init comments self ;;
  setattr (VRef self) "id" id_ ;;
  setattr (VRef self) "name" name ;;
  pt <- or_else protocol_type OntologyAnnotation_default ;;
  setattr (VRef self) "protocol_type" pt ;;
  setattr (VRef self) "description" description ;;
  setattr (VRef self) "uri" uri ;;
  setattr (VRef self) "version" version ;;
  ps <- or_else parameters list_ ;;
  setattr (VRef self) "parameters" ps ;;
  cs <- or_else components list_ ;;
  setattr (VRef self) "components" cs.

Definition Protocol_default : M val :=
  new Protocol
    (Protocol_init (VStr EmptyString) (VStr EmptyString) VNone
       (VStr EmptyString) (VStr EmptyString) (VStr EmptyString)
       VNone VNone VNone).

Definition Source_init (id_ name characteristics comments : val) (self : addr) : M unit :=
  Commentable_init comments self ;;
  setattr (VRef self) "id" id_ ;;
  setattr (VRef self) "name" name ;;
  cs <- or_else characteristics list_ ;;
  setattr (VRef self) "characteristics" cs.


Definition Sample_init
    (id_ name factor_values characteristics derives_from comments : val)
    (self : addr) : M unit :=
  Commentable_init comments self ;;
  setattr (VRef self) "id" id_ ;;
  setattr (VRef self) "name" name ;;
  fs <- or_else factor_values list_ ;;
  setattr (VRef self) "factor_values" fs ;;
  cs <- or_else characteristics list_ ;;
  setattr (VRef self) "characteristics" cs ;;
  setattr (VRef self) "derives_from" derives_from.

Definition Material_init
    (id_ name type_ characteristics derives_from comments : val)
    (self : addr) : M unit :=
  Commentable_init comments self ;;
  setattr (VRef self) "id" id_ ;;
  setattr (VRef self) "name" name ;;
  setattr (VRef self) "type" type_ ;;
  cs <- or_else characteristics list_ ;;
  setattr (VRef self) "characteristics" cs ;;
  setattr (VRef self) "derives_from" derives_from.

Definition Extract_init
    (id_ name type_ characteristics derives_from comments : val)
    (self : addr) : M unit :=
  Material_init id_ name type_ characteristics derives_from comments self ;;
  setattr (VRef self) "type" (VStr "Extract Name").

Definition LabeledExtract_init
    (id_ name type_ characteristics derives_from comments label : val)
    (self : addr) : M unit :=
  Extract_init id_ name type_ characteristics derives_from comments self ;;
  setattr (VRef self) "label" label.

Definition Process_init
    (id_ name executes_protocol date_ performer parameter_values inputs
     outputs comments : val) (self : addr) : M unit :=
  Commentable_init comments self ;;
  setattr (VRef self) "id" id_ ;;
  setattr (VRef self) "name" name ;;
  ep <- or_else executes_protocol Protocol_default ;;
  setattr (VRef self) "executes_protocol" ep ;;
  setattr (VRef self) "date" date_ ;;
  setattr (VRef self) "performer" performer ;;
  pv <- or_else parameter_values list_ ;;
  setattr (VRef self) "parameter_values" pv ;;
  i <- or_else inputs list_ ;;
  setattr (VRef self) "inputs" i ;;
  o <- or_else outputs list_ ;;
  setattr (VRef self) "outputs" o ;;
  ap <- dict_ ;;
  setattr (VRef self) "additional_properties" ap ;;
  setattr (VRef self) "prev_process" VNone ;;
  setattr (VRef self) "next_process" VNone.

Definition DataFile_init (id_ filename label comments : val) (self : addr) : M unit :=
  Commentable_init comments self ;;
  setattr (VRef self) "id" id_ ;;
  setattr (VRef self) "filename" filename ;;
  setattr (VRef self) "label" label.

(** ** The graph builder *)

Definition isinstanceM (v : val) (cs : list cls) : M bool :=
  λ h, (Ok (isinstance h v cs), h).

Definition is_listM (v : val) : M bool :=
  λ h, (Ok (is_list h v), h).

(** Loops with an accumulator. *)
Fixpoint fold_m {A S} (xs : list A) (s : S) (body : S → A → M S) : M S :=
  match xs with
  | [] => ret s
  | x :: xs' => s' <- body s x ;; fold_m xs' s' body
  end.

(** [networkx.DiGraph] as the builder uses it: the edges, in insertion order
    and without repetition.  Nodes are dictionary keys, so lists and
    dictionaries are refused; instances hash by identity. *)
Record DiGraph := { edges : list (val * val) }.

Definition hashable (h : heap) (v : val) : bool :=
  match v with
  | VRef a => match h !! a with Some (OInst _ _) => true | _ => false end
  | _ => true
  end.

Definition add_edge (G : DiGraph) (u v : val) : M DiGraph :=
  λ h, if hashable h u && hashable h v
       then (Ok (if decide ((u, v) ∈ edges G) then G
                 else {| edges := edges G ++ [(u, v)] |}), h)
       else (Err (PyExc TypeError), h).

Definition has_edge (G : DiGraph) (u v : val) : Prop := (u, v) ∈ edges G.

(** The first half of the loop body: the edges leaving [process]. *)
Definition connect_outputs (G : DiGraph) (process : val) : M DiGraph :=
  next_process <- getattr process "next_process" ;;
  some <- match next_process with
          | VNone => outputs <- getattr process "outputs" ;; truthy outputs
          | _ => ret true
          end ;;
  if (some : bool) then
    outputs <- getattr process "outputs" ;;
    nonempty <- truthy outputs ;;
    if (nonempty : bool) then
      ns <- iter outputs ;;
      fold_m ns G (λ G n,
        data <- isinstanceM n [DataFile] ;;
        if (data : bool) then ret G else add_edge G process n)
    else
      next_process <- getattr process "next_process" ;;
      add_edge G process next_process
  else ret G.

(** The second half: the edges entering [process]. *)
Definition connect_inputs (G : DiGraph) (process : val) : M DiGraph :=
  inputs <- getattr process "inputs" ;;
  nonempty <- truthy inputs ;;
  if (nonempty : bool) then
    items <- iter inputs ;;
    fold_m items G (λ G input_, add_edge G input_ process)
  else
    prev_process <- getattr process "prev_process" ;;
    match prev_process with
    | VNone => ret G
    | _ => add_edge G prev_process process
    end.

Definition _build_assay_graph (process_sequence : val) : M DiGraph :=
  ps <- iter process_sequence ;;
  fold_m ps {| edges := [] |} (λ G process,
    G <- connect_outputs G process ;;
    connect_inputs G process).

(** ** [copy.deepcopy] *)

(** The memo of a deep copy: the copies made so far, by original. *)
Abbreviation memo := (gmap addr addr).

(** The values an object holds, an empty object of the same kind, and the
    object with its values replaced.  A dictionary holds, item by item, the
    value and then the key: the order in which [y[copy(k)] = copy(v)] copies
    them. *)
Fixpoint flat (kvs : list (val * val)) : list val :=
  match kvs with
  | [] => []
  | (k, v) :: kvs' => v :: k :: flat kvs'
  end.

Fixpoint unflat (vs : list val) : list (val * val) :=
  match vs with
  | v :: k :: vs' => (k, v) :: unflat vs'
  | _ => []
  end.

Definition slots (o : obj) : list val :=
  match o with
  | OList vs => vs
  | ODict kvs => flat kvs
  | OInst _ d => d.*2
  end.

Definition blank (o : obj) : obj :=
  match o with
  | OList _ => OList []
  | ODict _ => ODict []
  | OInst c _ => OInst c []
  end.

Definition refill (o : obj) (vs : list val) : obj :=
  match o with
  | OList _ => OList vs
  | ODict _ => ODict (unflat vs)
  | OInst c d => OInst c (zip (d.*1) vs)
  end.

Fixpoint copy_all (copy : val → memo → M (val * memo))
    (vs : list val) (mm : memo) : M (list val * memo) :=
  match vs with
  | [] => ret ([], mm)
  | v :: vs' =>
      r <- copy v mm ;;
      rs <- copy_all copy vs' r.2 ;;
      ret (r.1 :: rs.1, rs.2)
  end.

(** [deepcopy(x, memo)]: numbers, text and [None] are their own copies; an
    object already in the memo yields its copy; any other object gets a new,
    empty copy that is entered in the memo before its contents are copied
    (so that cycles and sharing are reproduced) and filled afterwards.  The
    instance dictionary is copied as is, without going through property
    setters.  [fuel] bounds the nesting depth. *)
Fixpoint deepcopy_memo (fuel : nat) (x : val) (mm : memo) : M (val * memo) :=
  match x with
  | VRef a =>
      match mm !! a with
      | Some y => ret (VRef y, mm)
      | None =>
          match fuel with
          | O => λ h, (Err OutOfFuel, h)
          | S fuel' =>
              o <- get_obj a ;;
              y <- alloc (blank o) ;;
              r <- copy_all (deepcopy_memo fuel') (slots o) (<[a := y]> mm) ;;
              put_obj y (refill o r.1) ;;
              ret (VRef y, r.2)
          end
      end
  | _ => ret (x, mm)
  end.

Definition deepcopy (fuel : nat) (x : val) : M val :=
  r <- deepcopy_memo fuel x ∅ ;;
  ret r.1.

(** ** Batch generators *)

(** [six.moves.range(n)] *)
Definition range (n : val) : M (list Z) :=
  match n with
  | VInt z => ret (seqZ 0 z)
  | _ => raise TypeError
  end.

(** The body of the loop of [batch_create_materials]. *)
Definition create_material (fuel : nat) (material : val)
    (material_list : list val) (x : Z) : M (list val) :=
  new_obj <- deepcopy fuel material ;;
  name <- getattr material "name" ;;
  name' <- join "-" [name; VStr (str x)] ;;
  setattr new_obj "name" name' ;;
  ret (material_list ++ [new_obj]).

Definition batch_create_materials (fuel : nat) (material n : val) : M (list val) :=
  supported <- isinstanceM material [Source; Sample; Material] ;;
  if (supported : bool) then
    xs <- range n ;;
    fold_m xs [] (create_material fuel material)
  else ret [].

(** The three slots of the sliding window and the sequence built so far.
    They are initialised once, before the replica loop. *)
Record window := {
  process_sequence : list val;
  materialA : val;
  process : val;
  materialB : val
}.

(** [y = 0; for item in items: item.name = '-'.join([item.name, str(x),
    str(y)]); y += 1].  The body writes no list, so the items are those at
    loop entry. *)
Definition rename_items (items : val) (x : Z) : M unit :=
  ms <- iter items ;;
  for_each (imap (λ y m, (Z.of_nat y, m)) ms) (λ ym,
    name <- getattr ym.2 "name" ;;
    name' <- join "-" [name; VStr (str x); VStr (str ym.1)] ;;
    setattr ym.2 "name" name').

(** [c = deepcopy(arg); c.name = '-'.join([c.name, str(x)])] *)
Definition copy_renamed (fuel : nat) (arg : val) (x : Z) : M val :=
  c <- deepcopy fuel arg ;;
  name <- getattr c "name" ;;
  name' <- join "-" [name; VStr (str x)] ;;
  setattr c "name" name' ;;
  ret c.

Definition copy_renamed_items (fuel : nat) (arg : val) (x : Z) : M val :=
  c <- deepcopy fuel arg ;;
  rename_items c x ;;
  ret c.

(** A material goes to [materialA] when that slot is empty, else to
    [materialB]. *)
Definition fill_material (w : window) (c : val) : window :=
  match materialA w with
  | VNone =>
      {| process_sequence := process_sequence w; materialA := c;
         process := process w; materialB := materialB w |}
  | _ =>
      {| process_sequence := process_sequence w; materialA := materialA w;
         process := process w; materialB := c |}
  end.

Definition fill_process (w : window) (c : val) : window :=
  {| process_sequence := process_sequence w; materialA := materialA w;
     process := c; materialB := materialB w |}.

(** The wiring of one process [p] to the two material slots. *)
Definition wire (p mA mB : val) : M unit :=
  a_list <- is_listM mA ;;
  (if (a_list : bool) then setattr p "inputs" mA
   else inputs <- getattr p "inputs" ;; append inputs mA) ;;
  b_list <- is_listM mB ;;
  if (b_list : bool) then
    setattr p "outputs" mB ;;
    ms <- iter mB ;;
    for_each ms (λ material, setattr material "derives_from" mA)
  else
    outputs <- getattr p "outputs" ;;
    append outputs mB ;;
    setattr mB "derives_from" mA.

(** [for p in l: body(p)] over a list object whose body may append to lists:
    the list is read again at every step, as Python's list iterator does. *)
Fixpoint for_in (fuel : nat) (l : val) (i : nat) (body : val → M unit) : M unit :=
  match fuel with
  | O => λ h, (Err OutOfFuel, h)
  | S fuel' =>
      items <- iter l ;;
      match items !! i with
      | Some p => body p ;; for_in fuel' l (S i) body
      | None => ret tt
      end
  end.

Definition is_None (v : val) : bool :=
  match v with VNone => true | _ => false end.

(** The body of the inner loop for one chain element [arg] of replica [x]. *)
Definition place (fuel : nat) (x : Z) (w : window) (arg : val) : M window :=
  a_list <- is_listM arg ;;
  nonempty <- (if (a_list : bool) then truthy arg else ret false) ;;
  w <- (if (nonempty : bool) then
          items <- iter arg ;;
          match items with
          | first :: _ =>
              material <- isinstanceM first [Sample; Material] ;;
              if (material : bool) then
                c <- copy_renamed_items fuel arg x ;;
                ret (fill_material w c)
              else
                proc <- isinstanceM first [Process] ;;
                if (proc : bool) then
                  c <- copy_renamed_items fuel arg x ;;
                  ret (fill_process w c)
                else ret w
          | [] => ret w
          end
        else ret w) ;;
  material <- isinstanceM arg [Sample; Material] ;;
  w <- (if (material : bool) then
          c <- copy_renamed fuel arg x ;;
          ret (fill_material w c)
        else
          proc <- isinstanceM arg [Process] ;;
          if (proc : bool) then
            c <- copy_renamed fuel arg x ;;
            ret (fill_process w c)
          else ret w) ;;
  if negb (is_None (materialA w)) && negb (is_None (materialB w))
     && negb (is_None (process w)) then
    p_list <- is_listM (process w) ;;
    seq' <- (if (p_list : bool) then
               for_in fuel (process w) 0 (λ p, wire p (materialA w) (materialB w)) ;;
               ret (process_sequence w)
             else
               wire (process w) (materialA w) (materialB w) ;;
               ret (process_sequence w ++ [process w])) ;;
    ret {| process_sequence := seq'; materialA := materialB w;
           process := VNone; materialB := VNone |}
  else ret w.

(** [batch_create_assays]: [args] are the positional arguments, [kwargs]
    the keyword arguments; [n] defaults to 1. *)
Definition batch_create_assays (fuel : nat) (args : list val)
    (kwargs : list (string * val)) : M (list val) :=
  let n := match assoc "n" kwargs with Some n => n | None => VInt 1 end in
  xs <- range n ;;
  w <- fold_m xs
         {| process_sequence := []; materialA := VNone; process := VNone;
            materialB := VNone |}
         (λ w x, fold_m args w (place fuel x)) ;;
  ret (process_sequence w).

(** [batch_set_attr(l, attr, val)] *)
Definition batch_set_attr (l : val) (attr : string) (v : val) : M unit :=
  items <- iter l ;;
  for_each items (λ i, setattr i attr v).

(** ** Concrete stores used in examples *)

Definition no_text : val := VStr EmptyString.

(** [Comment('note', 'text')] in an empty store. *)
Definition comment_store : heap :=
  (new Comment (Comment_init (VStr "note") (VStr "text")) []).2.

(** [Publication()], every argument defaulted, in an empty store. *)
Definition publication_store : heap :=
  (new Publication (Publication_init VNone VNone VNone VNone VNone VNone) []).2.

(** [Sample(name='sample')], [Process(name='process')],
    [Material(name='material')] in an empty store. *)
Definition chain_prototypes : M (val * val * val) :=
  s <- new Sample (Sample_init no_text (VStr "sample") VNone VNone VNone VNone) ;;
  p <- new Process (Process_init no_text (VStr "process") VNone VNone VNone
                      VNone VNone VNone VNone) ;;
  m <- new Material (Material_init no_text (VStr "material") no_text VNone
                       VNone VNone) ;;
  ret (s, p, m).

(** What a test reads off a returned process: its name, and for each of its
    inputs and outputs the identity, the name and [derives_from]. *)
Fixpoint map_m {A B} (f : A → M B) (xs : list A) : M (list B) :=
  match xs with
  | [] => ret []
  | x :: xs' => y <- f x ;; ys <- map_m f xs' ;; ret (y :: ys)
  end.

Definition describe_node (v : val) : M (val * val * val) :=
  name <- getattr v "name" ;;
  d <- getattr v "derives_from" ;;
  ret (v, name, d).

Definition describe_process (p : val)
  : M (val * list (val * val * val) * list (val * val * val)) :=
  name <- getattr p "name" ;;
  i <- getattr p "inputs" ;;
  is_ <- iter i ;;
  o <- getattr p "outputs" ;;
  os <- iter o ;;
  ins <- map_m describe_node is_ ;;
  outs <- map_m describe_node os ;;
  ret (name, ins, outs).

(** [batch_create_assays(sample, process, material, n=2)] *)
Definition two_replicas : M (list val) :=
  r <- chain_prototypes ;;
  batch_create_assays 16 [r.1.1; r.1.2; r.2] [("n", VInt 2)].

(** [batch_create_assays(sample, [process, process2], material, n=1)] *)
Definition process_list_chain : M (list val * val) :=
  r <- chain_prototypes ;;
  p2 <- new Process (Process_init no_text (VStr "process2") VNone VNone VNone
                       VNone VNone VNone VNone) ;;
  l <- alloc (OList [r.1.2; p2]) ;;
  ps <- batch_create_assays 16 [r.1.1; VRef l; r.2] [("n", VInt 1)] ;;
  ret (ps, VRef l).

(** Two linked processes: [p] has one material output and
    [p.next_process = q]; [q] has no inputs and [q.prev_process = p].  The
    result is the process sequence [[p, q]] with [p], [q] and the material. *)
Definition linked_by_output : M (val * val * val * val) :=
  p <- new Process (Process_init no_text (VStr "p") VNone VNone VNone VNone
                      VNone VNone VNone) ;;
  q <- new Process (Process_init no_text (VStr "q") VNone VNone VNone VNone
                      VNone VNone VNone) ;;
  m <- new Material (Material_init no_text (VStr "m") no_text VNone VNone VNone) ;;
  outputs <- getattr p "outputs" ;;
  append outputs m ;;
  setattr p "next_process" q ;;
  setattr q "prev_process" p ;;
  l <- alloc (OList [p; q]) ;;
  ret (VRef l, p, q, m).

(** Two linked processes the other way round: [q] has no outputs and
    [q.next_process = p]; [p] has one material input and
    [p.prev_process = q].  The process sequence is [[q, p]]. *)
Definition linked_by_input : M (val * val * val * val) :=
  q <- new Process (Process_init no_text (VStr "q") VNone VNone VNone VNone
                      VNone VNone VNone) ;;
  p <- new Process (Process_init no_text (VStr "p") VNone VNone VNone VNone
                      VNone VNone VNone) ;;
  m <- new Material (Material_init no_text (VStr "m") no_text VNone VNone VNone) ;;
  inputs <- getattr p "inputs" ;;
  append inputs m ;;
  setattr q "next_process" p ;;
  setattr p "prev_process" q ;;
  l <- alloc (OList [q; p]) ;;
  ret (VRef l, p, q, m).

Definition linked_by_output_store : heap := (linked_by_output []).2.
Definition linked_by_input_store : heap := (linked_by_input []).2.

(** ** Vocabulary of the statements *)

(** [m] evaluates to [a] in [h] without changing it. *)
Definition reads {A} (m : M A) (h : heap) (a : A) : Prop := m h = (Ok a, h).

(** [v] is a list object of [h] holding [xs]. *)
Definition list_at (h : heap) (v : val) (xs : list val) : Prop :=
  ∃ l, v = VRef l ∧ h !! l = Some (OList xs).

(** The edge [process -> v] that the first half of the loop body adds. *)
Definition out_edge (h : heap) (process v : val) : Prop :=
  ∃ outputs,
    reads (getattr process "outputs") h outputs ∧
    ((reads (truthy outputs) h true ∧
      ∃ ns, reads (iter outputs) h ns ∧ v ∈ ns ∧ isinstance h v [DataFile] = false)
     ∨ (reads (truthy outputs) h false ∧
        reads (getattr process "next_process") h v ∧ v ≠ VNone)).

(** The edge [u -> process] that the second half adds. *)
Definition in_edge (h : heap) (process u : val) : Prop :=
  ∃ inputs,
    reads (getattr process "inputs") h inputs ∧
    ((reads (truthy inputs) h true ∧ ∃ items, reads (iter inputs) h items ∧ u ∈ items)
     ∨ (reads (truthy inputs) h false ∧
        reads (getattr process "prev_process") h u ∧ u ≠ VNone)).

(** [m] leaves the store as it is, whatever its outcome. *)
Definition pure {A} (m : M A) : Prop := ∀ h r h', m h = (r, h') → h' = h.

(** Every property of the module. *)
Definition all_properties : list property :=
  [Comment_name; Comment_value; Commentable_comments; OntologySource_name;
   OntologySource_file; OntologySource_version; OntologySource_description;
   OntologyAnnotation_term; OntologyAnnotation_term_source;
   OntologyAnnotation_term_accession].

(** [v] is no reference, or refers to an object of the range [lo, hi). *)
Definition fresh (lo hi : nat) (v : val) : Prop :=
  match v with
  | VRef a => lo ≤ a < hi
  | _ => True
  end.

(** The objects from [lo] on refer only to objects from [lo] on. *)
Definition closed (lo : nat) (h : heap) : Prop :=
  ∀ b o, lo ≤ b → h !! b = Some o → Forall (fresh lo (length h)) (slots o).

(** No reference of the store dangles. *)
Definition wf (h : heap) : Prop := closed 0 h.

(** The copies recorded in a memo lie in the range [lo, hi). *)
Definition memo_fresh (lo hi : nat) (mm : memo) : Prop :=
  ∀ a y, mm !! a = Some y → lo ≤ y < hi.


(** What a copying function guarantees on any run from a store whose
    objects from [N] on are closed: the store is only extended, stays closed,
    and the copy and the memo refer to objects from [N] on. *)
Definition copy_ok (N : nat) (copy : val → memo → M (val * memo)) : Prop :=
  ∀ x mm h r h',
    copy x mm h = (r, h') →
    N ≤ length h → closed N h → memo_fresh N (length h) mm →
    h `prefix_of` h' ∧ closed N h' ∧
    match r with
    | Ok (v, mm') => fresh N (length h') v ∧ memo_fresh N (length h') mm'
    | Err _ => True
    end.

(** The originals recorded in a memo are objects below [n], and the number
    of objects below [n] not yet recorded. *)
Definition memo_old (n : nat) (mm : memo) : Prop :=
  ∀ a, a ∈ dom mm → a < n.

Definition unvisited (n : nat) (mm : memo) : nat :=
  size (set_seq 0 n ∖ dom mm : gset nat).

(** What a copying function achieves over a well-formed store [h0] that the
    current store extends: with fuel for every object not yet in the memo it
    returns, extending the store and the memo. *)
Definition copy_total (h0 : heap) (fuel : nat)
    (copy : val → memo → M (val * memo)) : Prop :=
  ∀ x mm h,
    h0 `prefix_of` h → fresh 0 (length h0) x →
    memo_old (length h0) mm → unvisited (length h0) mm ≤ fuel →
    ∃ v mm' h',
      copy x mm h = (Ok (v, mm'), h') ∧ h `prefix_of` h' ∧ mm ⊆ mm'
      ∧ memo_old (length h0) mm'.

(** The objects of the range [lo, hi) refer only to objects of that range. *)
Definition region (lo hi : nat) (h : heap) : Prop :=
  ∀ b o, lo ≤ b < hi → h !! b = Some o → Forall (fresh lo hi) (slots o).

(** Consecutive regions: each address of [ys] starts a region that ends
    where the next one starts, the last one at [top]. *)
Fixpoint regions (h : heap) (ys : list addr) (top : nat) : Prop :=
  match ys with
  | [] => True
  | y :: ys' =>
      let hi := default top (head ys') in
      y < hi ∧ hi ≤ top ∧ region y hi h ∧ regions h ys' top
  end.

(** The copy at [y] made for index [x] of a prototype of class [c] with
    dictionary [d]. *)
Definition copy_named (h : heap) (c : cls) (d : attrs) (y : addr) (x : Z) : Prop :=
  ∃ d' s,
    attr_get "name" d = Some (VStr s) ∧ h !! y = Some (OInst c d')
    ∧ attr_get "name" d' = Some (VStr (s +:+ "-" +:+ str x)).


(** The store [h] keeps [h0]: it extends it, and what it adds is closed. *)
Definition keeps (h0 h : heap) : Prop :=
  h0 `prefix_of` h ∧ closed (length h0) h.

(** Whenever the values [vs] refer only to added objects, so do [ws]. *)
Definition covers (h0 : heap) (vs ws : list val) : Prop :=
  ∀ hi, Forall (fresh (length h0) hi) vs → Forall (fresh (length h0) hi) ws.

(** A computation that, run from a store keeping [h0] in which [vs] refer
    only to added objects, ends in a store keeping [h0] and returns a result
    whose values [Q] refer only to added objects. *)
Definition tracked {A} (h0 : heap) (vs : list val) (m : M A)
    (Q : A → list val) : Prop :=
  ∀ h r h',
    m h = (r, h') → keeps h0 h → Forall (fresh (length h0) (length h)) vs →
    keeps h0 h' ∧ length h ≤ length h' ∧
    match r with
    | Ok a => Forall (fresh (length h0) (length h')) (Q a)
    | Err _ => True
    end.

Definition nothing {A} : A → list val := λ _, [].

(** The slots of the window. *)
Definition slots_of (w : window) : list val :=
  [materialA w; process w; materialB w].

(** [wf] as a check. *)
Definition wfb (h : heap) : bool :=
  forallb (λ o, forallb (λ v, match v with
                              | VRef a => bool_decide (a < length h)
                              | _ => true
                              end) (slots o)) h.

(** [Source(name='S')] in an empty store. *)
Definition source_store : heap :=
  (new Source (Source_init no_text (VStr "S") VNone VNone) []).2.



(** [Source(name=None)] in an empty store. *)
Definition unnamed_source_store : heap :=
  (new Source (Source_init no_text VNone VNone VNone) []).2.



(** * Properties *)

(** ** The monad *)

Lemma bind_inv {A B} (m : M A) (k : A → M B) h r h' :
  bind m k h = (r, h') →
  (∃ a h1, m h = (Ok a, h1) ∧ k a h1 = (r, h'))
  ∨ (∃ e, m h = (Err e, h') ∧ r = Err e).
Proof.
  unfold bind. destruct (m h) as [[a|e] h1]; intros H.
  - left. eauto.
  - right. inversion H; subst. eauto.
Qed.

Lemma bind_ok {A B} (m : M A) (k : A → M B) h b h' :
  bind m k h = (Ok b, h') →
  ∃ a h1, m h = (Ok a, h1) ∧ k a h1 = (Ok b, h').
Proof.
  intros H. apply bind_inv in H as [H|(e & _ & H)]; [done | discriminate].
Qed.

Lemma bind_run {A B} (m : M A) (k : A → M B) h a h1 :
  m h = (Ok a, h1) → bind m k h = k a h1.
Proof. unfold bind. by intros ->. Qed.

Lemma bind_fail {A B} (m : M A) (k : A → M B) h e h1 :
  m h = (Err e, h1) → bind m k h = (Err e, h1).
Proof. unfold bind. by intros ->. Qed.

(** ** Instance dictionaries *)

Lemma attr_get_set_eq k v d : attr_get k (attr_set k v d) = Some v.
Proof.
  induction d as [|[k' v'] d IH]; simpl.
  - by rewrite decide_True.
  - destruct (decide (k = k')) as [->|Hne]; simpl.
    + by rewrite decide_True.
    + by rewrite decide_False.
Qed.

Lemma attr_get_set_ne k k' v d :
  k' ≠ k → attr_get k' (attr_set k v d) = attr_get k' d.
Proof.
  intros Hne. induction d as [|[k0 v0] d IH]; simpl.
  - by rewrite decide_False.
  - destruct (decide (k = k0)) as [->|Hk]; simpl.
    + by rewrite !decide_False.
    + destruct (decide (k' = k0)); [done | apply IH].
Qed.

Lemma get_obj_run (h : heap) (a : addr) o : h !! a = Some o → get_obj a h = (Ok o, h).
Proof. unfold get_obj. by intros ->. Qed.

Lemma store_run (h : heap) (a : addr) c d k v :
  h !! a = Some (OInst c d) →
  store a k v h = (Ok tt, <[a := OInst c (attr_set k v d)]> h).
Proof. intros H. unfold store. by rewrite (bind_run _ _ _ _ _ (get_obj_run _ _ _ H)). Qed.

Lemma load_run (h : heap) (a : addr) c d k v :
  h !! a = Some (OInst c d) → attr_get k d = Some v → load a k h = (Ok v, h).
Proof.
  intros H Hk. unfold load.
  rewrite (bind_run _ _ _ _ _ (get_obj_run _ _ _ H)). by rewrite Hk.
Qed.

Lemma lookup_put (h : heap) (a : addr) (o o' : obj) :
  h !! a = Some o → <[a := o']> h !! a = Some o'.
Proof. intros H. apply list_lookup_insert_eq. by eapply lookup_lt_Some. Qed.

Lemma alloc_run (h : heap) o : alloc o h = (Ok (length h), h ++ [o]).
Proof. done. Qed.

Lemma lookup_alloc (h : heap) (o : obj) : (h ++ [o]) !! length h = Some o.
Proof. by rewrite lookup_app_r, Nat.sub_diag. Qed.

(** Assignment through a validated property whose check passes. *)
Lemma setattr_property_run (h : heap) (a : addr) c d name p ts ae k v :
  h !! a = Some (OInst c d) →
  find_property c name = Some p →
  fset p = (λ self x, accepts ts ae x ;; store self k x) →
  accepts ts ae v h = (Ok tt, h) →
  setattr (VRef a) name v h = (Ok tt, <[a := OInst c (attr_set k v d)]> h).
Proof.
  intros Ha Hp Hset Hacc. unfold setattr.
  rewrite (bind_run _ _ _ _ _ (get_obj_run _ _ _ Ha)), Hp, Hset.
  rewrite (bind_run _ _ _ _ _ Hacc). by apply store_run.
Qed.

(** Assignment to a name that is no property: an instance dictionary entry. *)
Lemma setattr_plain_run (h : heap) (a : addr) c d name v :
  h !! a = Some (OInst c d) →
  find_property c name = None →
  setattr (VRef a) name v h = (Ok tt, <[a := OInst c (attr_set name v d)]> h).
Proof.
  intros Ha Hp. unfold setattr.
  by rewrite (bind_run _ _ _ _ _ (get_obj_run _ _ _ Ha)), Hp.
Qed.

Lemma getattr_plain_run (h : heap) (a : addr) c d name v :
  h !! a = Some (OInst c d) →
  find_property c name = None →
  attr_get name d = Some v →
  getattr (VRef a) name h = (Ok v, h).
Proof.
  intros Ha Hp Hv. unfold getattr.
  by rewrite (bind_run _ _ _ _ _ (get_obj_run _ _ _ Ha)), Hp, Hv.
Qed.

(** Reading through a getter of the shape
    [if not self.test: return None else: return self.field]. *)
Lemma getattr_guarded_run (h : heap) (a : addr) c d name p test field t b v :
  h !! a = Some (OInst c d) →
  find_property c name = Some p →
  fget p = (λ self, x <- load self test ;; b <- truthy x ;;
                    if negb b then ret VNone else load self field) →
  attr_get test d = Some t →
  truthy t h = (Ok b, h) →
  (b = true → attr_get field d = Some v) →
  getattr (VRef a) name h = (Ok (if b then v else VNone), h).
Proof.
  intros Ha Hp Hget Ht Hb Hv. unfold getattr.
  rewrite (bind_run _ _ _ _ _ (get_obj_run _ _ _ Ha)), Hp, Hget.
  rewrite (bind_run _ _ _ _ _ (load_run _ _ _ _ _ _ Ha Ht)).
  rewrite (bind_run _ _ _ _ _ Hb).
  destruct b; simpl; [|done]. by apply (load_run _ _ _ _ _ _ Ha), Hv.
Qed.

(** ** Annotation getters *)

Lemma accepts_number (h : heap) v :
  v = VInt 0 ∨ (∃ e, v = VFloat 0 e) →
  accepts [T_text; T_int; T_float; T_None] true v h = (Ok tt, h)
  ∧ truthy v = ret false.
Proof. by intros [->|[e ->]]. Qed.

(** C10.  The [value] getter of a [Comment] turns every false stored value
    into [None]: whatever is stored, a false value reads as [None] and a
    true one as itself; assigning the integer 0 or the float 0.0 passes the
    setter's validation and then reads back as [None]; and so does a
    [Comment] constructed with either. *)
Theorem Comment_value_falsy_reads_None (h : heap) (c : addr) (d : attrs) :
  h !! c = Some (OInst Comment d) →
  (∀ v b, attr_get "_Comment__value" d = Some v → truthy v h = (Ok b, h) →
     getattr (VRef c) "value" h = (Ok (if b then v else VNone), h)) ∧
  (∀ v, v = VInt 0 ∨ (∃ e, v = VFloat 0 e) →
     ∃ h', setattr (VRef c) "value" v h = (Ok tt, h') ∧
           getattr (VRef c) "value" h' = (Ok VNone, h')) ∧
  (∀ name v, name ≠ EmptyString → v = VInt 0 ∨ (∃ e, v = VFloat 0 e) →
     ∃ h', new Comment (Comment_init (VStr name) v) h = (Ok (VRef (length h)), h') ∧
           getattr (VRef (length h)) "value" h' = (Ok VNone, h')).
Proof.
  intros Hc. split; [|split].
  - intros v b Hv Ht.
    by eapply (getattr_guarded_run h c Comment d "value" Comment_value).
  - intros v Hv. eexists. split.
    + eapply (setattr_property_run h c Comment d "value" Comment_value); try done.
      by apply accepts_number.
    + eapply (getattr_guarded_run _ c Comment _ "value" Comment_value
                "_Comment__value" "_Comment__value" v false VNone); try done.
      * by eapply lookup_put.
      * apply attr_get_set_eq.
      * by destruct (accepts_number h v Hv) as [_ ->].
  - intros name v Hname Hv.
    pose proof (lookup_alloc h (OInst Comment [])) as H0.
    assert (accepts [T_text; T_None] false (VStr name) (h ++ [OInst Comment []])
            = (Ok tt, h ++ [OInst Comment []])) as Hacc.
    { unfold accepts. simpl. rewrite bool_decide_eq_false_2; [done|].
      by intros [= ->]. }
    pose proof (setattr_property_run _ _ _ _ "name" Comment_name _ _ _ _
                  H0 eq_refl eq_refl Hacc) as S1.
    pose proof (lookup_put _ _ _
                  (OInst Comment (attr_set "_Comment__name" (VStr name) [])) H0) as H1.
    pose proof (setattr_property_run _ _ _ _ "value" Comment_value _ _ _ v
                  H1 eq_refl eq_refl (proj1 (accepts_number _ v Hv))) as S2.
    eexists. split.
    + unfold new. rewrite (bind_run _ _ _ _ _ (alloc_run _ _)).
      unfold Comment_init.
      erewrite (bind_run (bind _ _)); [done|].
      rewrite (bind_run _ _ _ _ _ S1). apply S2.
    + eapply (getattr_guarded_run _ _ Comment _ "value" Comment_value
                "_Comment__value" "_Comment__value" v false VNone); try done.
      * by eapply lookup_put.
      * apply attr_get_set_eq.
      * by destruct (accepts_number h v Hv) as [_ ->].
Qed.

Lemma Comment_value_falsy_reads_None_witness :
  comment_store !! 0
  = Some (OInst Comment [("_Comment__name", VStr "note");
                         ("_Comment__value", VStr "text")])
  ∧ ∃ h', setattr (VRef 0) "value" (VFloat 0 0) comment_store = (Ok tt, h')
          ∧ getattr (VRef 0) "value" h' = (Ok VNone, h').
Proof.
  split; [reflexivity|].
  apply (proj1 (proj2 (Comment_value_falsy_reads_None comment_store 0 _ eq_refl))).
  right. exists 0%Z. reflexivity.
Defined.

Lemma truthy_text (s : string) :
  s ≠ EmptyString → truthy (VStr s) = ret true.
Proof. intros Hs. simpl. by destruct s. Qed.

(** C8.  For an [OntologyAnnotation] the [term_accession] getter is guarded
    by the stored term: a non-empty accession string can always be assigned,
    and afterwards reading [term_accession] gives [None] when the term is
    [None] or empty and gives the assigned accession when the term is
    non-empty text.  More generally a false term hides whatever accession is
    stored and a true term shows it. *)
Theorem term_accession_guarded_by_term (h : heap) (a : addr) (d : attrs)
    (t : val) (s : string) :
  h !! a = Some (OInst OntologyAnnotation d) →
  attr_get "_OntologyAnnotation__term" d = Some t →
  s ≠ EmptyString →
  (∀ acc b, attr_get "_OntologyAnnotation__term_accession" d = Some acc →
     truthy t h = (Ok b, h) →
     getattr (VRef a) "term_accession" h = (Ok (if b then acc else VNone), h)) ∧
  ∃ h', setattr (VRef a) "term_accession" (VStr s) h = (Ok tt, h') ∧
    (t = VNone ∨ t = VStr EmptyString →
       getattr (VRef a) "term_accession" h' = (Ok VNone, h')) ∧
    (∀ s', t = VStr s' → s' ≠ EmptyString →
       getattr (VRef a) "term_accession" h' = (Ok (VStr s), h')).
Proof.
  intros Ha Ht Hs. split.
  - intros acc b Hacc Hb.
    by eapply (getattr_guarded_run h a OntologyAnnotation d "term_accession"
                 OntologyAnnotation_term_accession).
  - eexists. split; [|split].
    + by eapply (setattr_property_run h a OntologyAnnotation d "term_accession"
                   OntologyAnnotation_term_accession).
    + intros Hempty.
      eapply (getattr_guarded_run _ a OntologyAnnotation _ "term_accession"
                OntologyAnnotation_term_accession _ _ t false VNone).
      * by eapply lookup_put.
      * done.
      * done.
      * by rewrite attr_get_set_ne.
      * by destruct Hempty as [->| ->].
      * done.
    + intros s' -> Hs'.
      eapply (getattr_guarded_run _ a OntologyAnnotation _ "term_accession"
                OntologyAnnotation_term_accession _ _ (VStr s') true (VStr s)).
      * by eapply lookup_put.
      * done.
      * done.
      * by rewrite attr_get_set_ne.
      * by rewrite truthy_text.
      * intros _. apply attr_get_set_eq.
Qed.

Lemma term_accession_guarded_by_term_witness :
  ∃ h', setattr (VRef 0) "term_accession" (VStr "OBI:0000070")
          (OntologyAnnotation_default []).2 = (Ok tt, h')
        ∧ getattr (VRef 0) "term_accession" h' = (Ok VNone, h').
Proof.
  destruct (term_accession_guarded_by_term (OntologyAnnotation_default []).2 0
              _ VNone "OBI:0000070" eq_refl eq_refl) as [_ (h' & Hset & Hnone & _)].
  - discriminate.
  - exists h'. split; [exact Hset | apply Hnone; by left].
Defined.

(** ** Publication *)

Lemma Publication_properties name :
  find_property Publication name
  = if decide (name = "comments") then Some Commentable_comments else None.
Proof. unfold find_property. simpl. by destruct (decide (name = "comments")). Qed.

(** C9, as the code has it.  [Publication] validates nothing of its own, but
    it inherits the validated [comments] property of [Commentable]: assigning
    a value of any type to any attribute other than [comments] never raises
    and the value is stored and read back as it is; [comments] takes a list
    or [None], which it stores and reads back as it is, and refuses anything
    else. *)
Theorem Publication_attributes_unvalidated (h : heap) (a : addr) (d : attrs)
    (name : string) (v : val) :
  h !! a = Some (OInst Publication d) →
  (name ≠ "comments" →
     ∃ h', setattr (VRef a) name v h = (Ok tt, h') ∧
           getattr (VRef a) name h' = (Ok v, h')) ∧
  (v = VNone ∨ is_list h v = true →
     ∃ h', setattr (VRef a) "comments" v h = (Ok tt, h') ∧
           getattr (VRef a) "comments" h' = (Ok v, h')) ∧
  (v ≠ VNone → is_list h v = false →
     setattr (VRef a) "comments" v h = (Err (PyExc ValidationFailure), h)).
Proof.
  intros Ha. split; [|split].
  - intros Hname.
    assert (find_property Publication name = None) as Hp
      by (by rewrite Publication_properties, decide_False).
    eexists. split.
    + by apply (setattr_plain_run h a Publication d).
    + eapply getattr_plain_run; [by eapply lookup_put | done |].
      apply attr_get_set_eq.
  - intros Hv.
    assert (accepts [T_list; T_None] true v h = (Ok tt, h)) as Hacc.
    { unfold accepts. destruct Hv as [->|Hl]; simpl.
      - by destruct (is_list h VNone).
      - by rewrite Hl. }
    eexists. split.
    + by eapply (setattr_property_run h a Publication d "comments"
                   Commentable_comments).
    + unfold getattr.
      erewrite bind_run; [|by eapply get_obj_run, lookup_put].
      simpl. eapply load_run; [by eapply lookup_put|]. apply attr_get_set_eq.
  - intros Hv Hl. unfold setattr.
    rewrite (bind_run _ _ _ _ _ (get_obj_run _ _ _ Ha)). simpl.
    apply bind_fail. unfold accepts. simpl. rewrite Hl. by destruct v.
Qed.

Lemma Publication_attributes_unvalidated_witness :
  ∃ h', setattr (VRef 0) "pubmed_id" (VInt 12345) publication_store = (Ok tt, h')
        ∧ getattr (VRef 0) "pubmed_id" h' = (Ok (VInt 12345), h').
Proof.
  apply (Publication_attributes_unvalidated publication_store 0 _ "pubmed_id"
           (VInt 12345) eq_refl).
  discriminate.
Defined.

(** C9 as stated fails: assigning an integer to the [comments] attribute of a
    default [Publication()] is refused. *)
Lemma Publication_comments_validated :
  publication_store !! 0
  = Some (OInst Publication
            [("_Commentable__comments", VNone); ("pubmed_id", VNone);
             ("doi", VNone); ("author_list", VNone); ("title", VNone);
             ("status", VNone)])
  ∧ setattr (VRef 0) "comments" (VInt 5) publication_store
    = (Err (PyExc ValidationFailure), publication_store).
Proof. split; reflexivity. Qed.

(** ** Unsupported prototypes *)

(** C7.  [batch_create_materials] on anything that is not an instance of
    [Source], [Sample] or [Material] returns the empty list, whatever [n] is,
    raises nothing and leaves the store as it was. *)
Theorem batch_create_materials_unsupported (fuel : nat) (h : heap)
    (material n : val) :
  isinstance h material [Source; Sample; Material] = false →
  batch_create_materials fuel material n h = (Ok [], h).
Proof.
  intros Hi. unfold batch_create_materials, isinstanceM, bind. by rewrite Hi.
Qed.

Lemma batch_create_materials_unsupported_witness :
  batch_create_materials 0 (VRef 3) (VInt 4) (chain_prototypes []).2
  = (Ok [], (chain_prototypes []).2)
  ∧ batch_create_materials 0 VNone (VStr "many") [] = (Ok [], []).
Proof.
  split.
  - apply (batch_create_materials_unsupported 0 (chain_prototypes []).2).
    reflexivity.
  - apply (batch_create_materials_unsupported 0 []). reflexivity.
Defined.

(** ** Assay chains on the example prototypes *)

(** C1 fails on the code.  For [batch_create_assays(sample, process,
    material, n=2)] two processes come back, and the first is wired as
    expected; but the window is not emptied between replicas, so the second
    process has as its input the first replica's material copy, as its output
    the second replica's sample copy, and that sample derives from the
    material. *)
Theorem batch_create_assays_second_replica_miswired :
  ∃ p0 p1 s0 m0 s1 h',
    two_replicas [] = (Ok [p0; p1], h')
    ∧ describe_process p0 h'
      = (Ok (VStr "process-0", [(s0, VStr "sample-0", VNone)],
             [(m0, VStr "material-0", s0)]), h')
    ∧ describe_process p1 h'
      = (Ok (VStr "process-1", [(m0, VStr "material-0", s0)],
             [(s1, VStr "sample-1", m0)]), h').
Proof.
  exists (VRef 17), (VRef 31), (VRef 14), (VRef 26), (VRef 28).
  eexists. split; [|split].
  - vm_compute. reflexivity.
  - vm_compute. reflexivity.
  - vm_compute. reflexivity.
Qed.

(** C2 fails on the code.  When the process slot holds a list, its processes
    are wired but none is appended: [batch_create_assays(sample, [process,
    process2], material, n=1)] returns the empty sequence, while the two
    process copies sit in the store with their inputs and outputs set. *)
Theorem batch_create_assays_process_list_dropped :
  ∃ l h',
    process_list_chain [] = (Ok ([], l), h')
    ∧ describe_process (VRef 28) h'
      = (Ok (VStr "process-0-0", [(VRef 24, VStr "sample-0", VNone)],
             [(VRef 46, VStr "material-0", VRef 24)]), h')
    ∧ describe_process (VRef 37) h'
      = (Ok (VStr "process2-0-1", [(VRef 24, VStr "sample-0", VNone)],
             [(VRef 46, VStr "material-0", VRef 24)]), h').
Proof.
  eexists. eexists. split; [|split].
  - vm_compute. reflexivity.
  - vm_compute. reflexivity.
  - vm_compute. reflexivity.
Qed.

(** ** Reading leaves the store alone *)

Lemma pure_ret {A} (a : A) : pure (ret a).
Proof. by intros h r h' [= _ ->]. Qed.

Lemma pure_raise {A} e : pure (@raise A e).
Proof. by intros h r h' [= _ ->]. Qed.

Lemma pure_bind {A B} (m : M A) (k : A → M B) :
  pure m → (∀ a, pure (k a)) → pure (bind m k).
Proof.
  intros Hm Hk h r h' H.
  apply bind_inv in H as [(a & h1 & H1 & H2)|(e & H1 & _)].
  - apply Hm in H1 as ->. by apply Hk in H2.
  - by apply Hm in H1.
Qed.

Lemma pure_get_obj a : pure (get_obj a).
Proof. intros h r h'. unfold get_obj. by destruct (h !! a); intros [= _ ->]. Qed.

Lemma pure_isinstanceM v cs : pure (isinstanceM v cs).
Proof. by intros h r h' [= _ ->]. Qed.

Lemma pure_is_listM v : pure (is_listM v).
Proof. by intros h r h' [= _ ->]. Qed.

Lemma pure_accepts ts ae v : pure (accepts ts ae v).
Proof.
  intros h r h'. unfold accepts.
  by repeat case_match; intros [= _ ->].
Qed.

Lemma pure_join sep vs : pure (join sep vs).
Proof.
  unfold join. destruct (texts vs); [apply pure_ret | apply pure_raise].
Qed.

Lemma pure_range n : pure (range n).
Proof. destruct n; first [apply pure_ret | apply pure_raise]. Qed.

Create HintDb pure.

#[local] Hint Resolve pure_ret pure_raise pure_get_obj pure_isinstanceM
  pure_is_listM pure_accepts pure_join pure_range : pure.

Ltac solve_pure :=
  repeat first
    [ progress eauto with pure
    | apply pure_bind; [|intros ?]
    | match goal with
      | |- pure (match ?x with _ => _ end) => destruct x
      | |- pure (if ?x then _ else _) => destruct x
      end ].

Lemma pure_load a k : pure (load a k).
Proof. unfold load. solve_pure. Qed.

Lemma pure_truthy v : pure (truthy v).
Proof. unfold truthy. solve_pure. Qed.

Lemma pure_iter v : pure (iter v).
Proof. unfold iter. solve_pure. Qed.

#[local] Hint Resolve pure_load pure_truthy pure_iter : pure.

Lemma find_property_listed c name p :
  find_property c name = Some p → p ∈ all_properties.
Proof.
  unfold find_property, all_properties.
  destruct c; simpl; repeat case_decide; intros [= <-]; set_solver.
Qed.

Lemma pure_fget c name p a : find_property c name = Some p → pure (fget p a).
Proof.
  intros H. apply find_property_listed in H.
  unfold all_properties in H.
  repeat (apply elem_of_cons in H as [->|H]; [simpl; solve_pure|]).
  by apply elem_of_nil in H.
Qed.

Lemma pure_getattr v name : pure (getattr v name).
Proof.
  unfold getattr. destruct v; try apply pure_raise.
  apply pure_bind; [apply pure_get_obj|]. intros [vs|kvs|c d]; try apply pure_raise.
  destruct (find_property c name) eqn:Hp.
  - by eapply pure_fget.
  - solve_pure.
Qed.

Lemma pure_add_edge G u v : pure (add_edge G u v).
Proof. intros h r h'. unfold add_edge. by case_match; intros [= _ ->]. Qed.

#[local] Hint Resolve pure_getattr pure_add_edge : pure.

Lemma pure_fold_m {A S} (xs : list A) (s : S) body :
  (∀ s x, pure (body s x)) → pure (fold_m xs s body).
Proof.
  intros Hb. revert s. induction xs as [|x xs IH]; intros s; simpl.
  - apply pure_ret.
  - apply pure_bind; [apply Hb | intros s'; apply IH].
Qed.

Lemma pure_for_each {A} (xs : list A) body :
  (∀ x, pure (body x)) → pure (for_each xs body).
Proof.
  intros Hb. induction xs as [|x xs IH]; simpl.
  - apply pure_ret.
  - apply pure_bind; [apply Hb | intros _; apply IH].
Qed.

Lemma pure_connect_outputs G p : pure (connect_outputs G p).
Proof.
  unfold connect_outputs. solve_pure.
  apply pure_fold_m. intros. solve_pure.
Qed.

Lemma pure_connect_inputs G p : pure (connect_inputs G p).
Proof.
  unfold connect_inputs. solve_pure.
  apply pure_fold_m. intros. solve_pure.
Qed.

(** The graph builder only reads the store. *)
Lemma pure_build_assay_graph seq : pure (_build_assay_graph seq).
Proof.
  unfold _build_assay_graph. solve_pure.
  apply pure_fold_m. intros.
  apply pure_bind; [apply pure_connect_outputs | intros; apply pure_connect_inputs].
Qed.

(** ** The edges of the built graph *)

(** One step of a successful run whose first action only reads. *)
Ltac read_step H x Hx :=
  let h1 := fresh "h" in
  apply bind_ok in H as (x & h1 & Hx & H);
  match type of Hx with
  | ?m ?h0 = _ =>
      let Hp := fresh in
      assert (pure m) as Hp by solve_pure;
      apply Hp in Hx as ?; subst h1; clear Hp
  end.

Lemma add_edge_edges G u v h G' h' :
  add_edge G u v h = (Ok G', h') →
  h' = h ∧ ∀ e, e ∈ edges G' ↔ e ∈ edges G ∨ e = (u, v).
Proof.
  unfold add_edge. case_match; intros [= <- <-]; split; [done|].
  intros e. case_decide; simpl.
  - split; [by left | by intros [?| ->]].
  - by rewrite elem_of_app, list_elem_of_singleton.
Qed.

Lemma outputs_loop_edges p ns : ∀ G h G' h',
  fold_m ns G (λ G n,
    data <- isinstanceM n [DataFile] ;;
    if (data : bool) then ret G else add_edge G p n) h = (Ok G', h') →
  h' = h ∧ ∀ e, e ∈ edges G' ↔
    e ∈ edges G ∨ ∃ n, n ∈ ns ∧ isinstance h n [DataFile] = false ∧ e = (p, n).
Proof.
  induction ns as [|n ns IH]; intros G h G' h' H; simpl in H.
  - injection H as <- <-. split; [done|]. intros e.
    split; [by left|]. intros [?|(n & Hn & _)]; [done|]. by apply elem_of_nil in Hn.
  - apply bind_ok in H as (G1 & h1 & Hbody & H).
    read_step Hbody data Hdata. injection Hdata as <-.
    destruct (isinstance h n [DataFile]) eqn:Hd.
    + injection Hbody as <- <-. apply IH in H as [-> H]. split; [done|].
      intros e. rewrite H. split.
      * intros [?|(n' & Hn' & ?)]; [by left|]. right. exists n'.
        split; [by right | done].
      * intros [?|(n' & Hn' & Hf & ->)]; [by left|].
        apply elem_of_cons in Hn' as [->|Hn']; [congruence|]. right. eauto.
    + apply add_edge_edges in Hbody as [-> Hadd].
      apply IH in H as [-> H]. split; [done|].
      intros e. rewrite H, Hadd. split.
      * intros [[?| ->]|(n' & Hn' & ?)].
        -- by left.
        -- right. exists n. split; [by left | done].
        -- right. exists n'. split; [by right | done].
      * intros [?|(n' & Hn' & Hf & ->)]; [by left; left|].
        apply elem_of_cons in Hn' as [->|Hn']; [by left; right|]. right. eauto.
Qed.

Lemma inputs_loop_edges p items : ∀ G h G' h',
  fold_m items G (λ G input_, add_edge G input_ p) h = (Ok G', h') →
  h' = h ∧ ∀ e, e ∈ edges G' ↔ e ∈ edges G ∨ ∃ i, i ∈ items ∧ e = (i, p).
Proof.
  induction items as [|i items IH]; intros G h G' h' H; simpl in H.
  - injection H as <- <-. split; [done|]. intros e.
    split; [by left|]. intros [?|(n & Hn & _)]; [done|]. by apply elem_of_nil in Hn.
  - apply bind_ok in H as (G1 & h1 & Hbody & H).
    apply add_edge_edges in Hbody as [-> Hadd].
    apply IH in H as [-> H]. split; [done|].
    intros e. rewrite H, Hadd. split.
    + intros [[?| ->]|(n' & Hn' & ?)].
      * by left.
      * right. exists i. split; [by left | done].
      * right. exists n'. split; [by right | done].
    + intros [?|(n' & Hn' & ->)]; [by left; left|].
      apply elem_of_cons in Hn' as [->|Hn']; [by left; right|]. right. eauto.
Qed.

Lemma reads_fun {A} (m : M A) h a b h' :
  reads m h a → m h = (Ok b, h') → a = b.
Proof. unfold reads. congruence. Qed.

Lemma connect_outputs_edges G p h G' h' :
  connect_outputs G p h = (Ok G', h') →
  h' = h ∧ ∀ u v, (u, v) ∈ edges G' ↔ (u, v) ∈ edges G ∨ (u = p ∧ out_edge h p v).
Proof.
  unfold connect_outputs. intros H.
  read_step H nx Hnx. read_step H some Hsome. destruct some.
  - read_step H outs Houts. read_step H nonempty Hne. destruct nonempty.
    + read_step H ns Hns. apply outputs_loop_edges in H as [-> H].
      split; [done|]. intros u v. rewrite H. split.
      * intros [?|(n & Hn & Hd & [= -> ->])]; [by left|]. right. split; [done|].
        exists outs. split; [done|]. left. split; [done|]. by exists ns.
      * intros [?|[-> (outs' & Ho & Hcase)]]; [by left|]. right.
        apply (reads_fun _ _ _ _ _ Ho) in Houts as ->.
        destruct Hcase as [(_ & ns' & Hns' & Hv & Hd)|(Hf & _)].
        -- apply (reads_fun _ _ _ _ _ Hns') in Hns as ->. eauto.
        -- by apply (reads_fun _ _ _ _ _ Hf) in Hne.
    + read_step H nx' Hnx'. apply add_edge_edges in H as [-> H].
      assert (nx' = nx) as -> by congruence.
      assert (nx ≠ VNone) as Hset.
      { intros ->. read_step Hsome outs' Houts'.
        assert (outs' = outs) as -> by congruence. congruence. }
      split; [done|]. intros u v. rewrite H. split.
      * intros [?|[= -> ->]]; [by left|]. right. split; [done|].
        exists outs. split; [done|]. by right.
      * intros [?|[-> (outs' & Ho & Hcase)]]; [by left|]. right.
        apply (reads_fun _ _ _ _ _ Ho) in Houts as ->.
        destruct Hcase as [(Ht & _)|(_ & Hv & _)].
        -- by apply (reads_fun _ _ _ _ _ Ht) in Hne.
        -- by apply (reads_fun _ _ _ _ _ Hv) in Hnx as ->.
  - injection H as <- <-. split; [done|]. intros u v.
    split; [by left|]. intros [?|[-> (outs & Ho & Hcase)]]; [done|]. exfalso.
    destruct nx; try discriminate.
    read_step Hsome outs' Houts'.
    apply (reads_fun _ _ _ _ _ Ho) in Houts' as <-.
    destruct Hcase as [(Ht & _)|(_ & Hv & Hset)].
    + by apply (reads_fun _ _ _ _ _ Ht) in Hsome.
    + by apply (reads_fun _ _ _ _ _ Hv) in Hnx as ->.
Qed.

Lemma connect_inputs_edges G p h G' h' :
  connect_inputs G p h = (Ok G', h') →
  h' = h ∧ ∀ u v, (u, v) ∈ edges G' ↔ (u, v) ∈ edges G ∨ (v = p ∧ in_edge h p u).
Proof.
  unfold connect_inputs. intros H.
  read_step H ins Hins. read_step H nonempty Hne. destruct nonempty.
  - read_step H items Hitems. apply inputs_loop_edges in H as [-> H].
    split; [done|]. intros u v. rewrite H. split.
    + intros [?|(i & Hi & [= -> ->])]; [by left|]. right. split; [done|].
      exists ins. split; [done|]. left. split; [done|]. by exists items.
    + intros [?|[-> (ins' & Hi & Hcase)]]; [by left|]. right.
      apply (reads_fun _ _ _ _ _ Hi) in Hins as ->.
      destruct Hcase as [(_ & items' & Hitems' & Hu)|(Hf & _)].
      * apply (reads_fun _ _ _ _ _ Hitems') in Hitems as ->. eauto.
      * by apply (reads_fun _ _ _ _ _ Hf) in Hne.
  - read_step H prev Hprev.
    assert (∀ u v, (v = p ∧ in_edge h p u) ↔ (u, v) = (prev, p) ∧ prev ≠ VNone)
      as Hchar.
    { intros u v. split.
      - intros [-> (ins' & Hi & Hcase)].
        apply (reads_fun _ _ _ _ _ Hi) in Hins as ->.
        destruct Hcase as [(Ht & _)|(_ & Hu & Hset)].
        + by apply (reads_fun _ _ _ _ _ Ht) in Hne.
        + by apply (reads_fun _ _ _ _ _ Hu) in Hprev as ->.
      - intros [[= -> ->] Hset]. split; [done|].
        exists ins. split; [done|]. by right. }
    destruct prev as [|z|m e|s|a].
    1: { injection H as <- <-. split; [done|]. intros u v. rewrite Hchar.
         split; [by left|]. by intros [?|[_ ?]]. }
    all: apply add_edge_edges in H as [-> H]; split; [done|];
      intros u v; rewrite H, Hchar; split;
      [ intros [?|?]; [by left | by right] | intros [?|[? _]]; [by left | by right] ].
Qed.

(** The edges of the built graph are exactly those the two halves of the loop
    body contribute, over all processes of the sequence; the store is
    untouched. *)
Lemma build_assay_graph_edges seq h G h' :
  _build_assay_graph seq h = (Ok G, h') →
  h' = h ∧ ∃ ps, reads (iter seq) h ps ∧
    ∀ u v, has_edge G u v ↔
      ∃ p, p ∈ ps ∧ ((u = p ∧ out_edge h p v) ∨ (v = p ∧ in_edge h p u)).
Proof.
  unfold _build_assay_graph. intros H. read_step H ps Hps.
  assert (∀ G0 G h', fold_m ps G0
            (λ G process, G <- connect_outputs G process ;; connect_inputs G process)
            h = (Ok G, h') →
          h' = h ∧ ∀ u v, (u, v) ∈ edges G ↔ (u, v) ∈ edges G0 ∨
            ∃ p, p ∈ ps ∧ ((u = p ∧ out_edge h p v) ∨ (v = p ∧ in_edge h p u)))
    as Hloop.
  { clear. induction ps as [|p ps IH]; intros G0 G h' H; simpl in H.
    - injection H as <- <-. split; [done|]. intros u v. split; [by left|].
      intros [?|(p & Hp & _)]; [done|]. by apply elem_of_nil in Hp.
    - apply bind_ok in H as (G2 & h2 & Hbody & H).
      apply bind_ok in Hbody as (G1 & h1 & Hout & Hin).
      apply connect_outputs_edges in Hout as [-> Hout].
      apply connect_inputs_edges in Hin as [-> Hin].
      apply IH in H as [-> H]. split; [done|]. intros u v.
      rewrite H, Hin, Hout. split.
      + intros [[[?|?]|?]|(q & Hq & ?)].
        * by left.
        * right. exists p. split; [by left | by left].
        * right. exists p. split; [by left | by right].
        * right. exists q. split; [by right | done].
      + intros [?|(q & Hq & Hcase)]; [by left; left; left|].
        apply elem_of_cons in Hq as [->|Hq].
        * destruct Hcase; [by left; left; right | by left; right].
        * right. eauto. }
  apply Hloop in H as [-> H]. split; [done|]. exists ps. split; [done|].
  intros u v. unfold has_edge. rewrite H. split.
  - intros [Hnil|?]; [by apply elem_of_nil in Hnil | done].
  - by right.
Qed.

Lemma list_at_reads (h : heap) v xs :
  list_at h v xs →
  reads (truthy v) h (negb (bool_decide (xs = []))) ∧ reads (iter v) h xs.
Proof.
  intros (l & -> & Hl). unfold reads, truthy, iter.
  by rewrite !(bind_run _ _ _ _ _ (get_obj_run _ _ _ Hl)).
Qed.

Lemma Process_not_DataFile (h : heap) v :
  isinstance h v [Process] = true → isinstance h v [DataFile] = true → False.
Proof.
  unfold isinstance. destruct v as [| | | |a]; try done.
  destruct (h !! a) as [[| |c d]|]; try done. by destruct c.
Qed.

(** C3, as the code has it.  Let [p] be a process of the sequence given to
    the builder, a sequence of [Process] instances.  If [p.outputs] is a
    non-empty list, the graph has an edge from [p] to every output that is
    not a [DataFile], has no edge from [p] to an output that is a
    [DataFile], and the first half of the loop body adds no edge from [p] to
    [p.next_process]: the graph has that edge only when [p.next_process] is
    itself one of the connected outputs, or is a process of the sequence
    whose own second half adds it (it lists [p] among its inputs, or has no
    inputs and [p] as its [prev_process]).  If [p.outputs] is empty and
    [p.next_process] is set, the graph has the edge from [p] to
    [p.next_process], and it is the only edge the first half adds for [p]. *)
Theorem outputs_take_precedence (h : heap) (seq : val) (ps : list val)
    (G : DiGraph) (h' : heap) (p outputs : val) (os : list val) :
  _build_assay_graph seq h = (Ok G, h') →
  reads (iter seq) h ps →
  Forall (λ q, isinstance h q [Process] = true) ps →
  p ∈ ps →
  reads (getattr p "outputs") h outputs →
  list_at h outputs os →
  (os ≠ [] →
     (∀ o, o ∈ os → isinstance h o [DataFile] = false → has_edge G p o) ∧
     (∀ o, o ∈ os → isinstance h o [DataFile] = true → ¬ has_edge G p o) ∧
     (∀ nx, reads (getattr p "next_process") h nx → has_edge G p nx →
        (nx ∈ os ∧ isinstance h nx [DataFile] = false)
        ∨ (nx ∈ ps ∧ in_edge h nx p))) ∧
  (os = [] → ∀ nx, reads (getattr p "next_process") h nx → nx ≠ VNone →
     has_edge G p nx ∧
     ∀ v, has_edge G p v → v = nx ∨ (v ∈ ps ∧ in_edge h v p)).
Proof.
  intros Hrun Hseq Hproc Hp Houts Hlist.
  apply build_assay_graph_edges in Hrun as [-> (ps' & Hseq' & Hedges)].
  apply (reads_fun _ _ _ _ _ Hseq) in Hseq' as <-.
  apply list_at_reads in Hlist as [Htruthy Hiter].
  assert (∀ v, out_edge h p v →
            (os ≠ [] ∧ v ∈ os ∧ isinstance h v [DataFile] = false)
            ∨ (os = [] ∧ reads (getattr p "next_process") h v ∧ v ≠ VNone))
    as Hout.
  { intros v (outs' & Ho & Hcase).
    apply (reads_fun _ _ _ _ _ Houts) in Ho as <-.
    destruct Hcase as [(Ht & ns & Hns & Hv & Hd)|(Hf & Hnx & Hset)].
    - apply (reads_fun _ _ _ _ _ Htruthy) in Ht.
      apply (reads_fun _ _ _ _ _ Hiter) in Hns as <-. left.
      split; [|done]. intros ->. by rewrite bool_decide_eq_true_2 in Ht.
    - apply (reads_fun _ _ _ _ _ Htruthy) in Hf. right.
      split; [|done]. apply negb_false_iff in Hf.
      by apply bool_decide_eq_true in Hf. }
  split.
  - intros Hne. rewrite bool_decide_eq_false_2 in Htruthy by done.
    split; [|split].
    + intros o Ho Hd. apply Hedges. exists p. split; [done|]. left.
      split; [done|]. exists outputs. split; [done|]. left. split; [done|].
      by exists os.
    + intros o Ho Hd (q & Hq & [[<- Hcase]|[-> _]])%Hedges.
      * apply Hout in Hcase as [(_ & _ & ?)|(? & _)]; congruence.
      * eapply Process_not_DataFile; [|done].
        by eapply (proj1 (Forall_forall _ _) Hproc).
    + intros nx Hnx (q & Hq & [[<- Hcase]|[-> Hin]])%Hedges.
      * apply Hout in Hcase as [(_ & ? & ?)|(? & _)]; [by left | done].
      * by right.
  - intros -> nx Hnx Hset. rewrite bool_decide_eq_true_2 in Htruthy by done.
    split.
    + apply Hedges. exists p. split; [done|]. left. split; [done|].
      exists outputs. split; [done|]. by right.
    + intros v (q & Hq & [[<- Hcase]|[-> Hin]])%Hedges.
      * apply Hout in Hcase as [(? & _)|(_ & Hv & _)]; [done|]. left.
        by apply (reads_fun _ _ _ _ _ Hnx) in Hv.
      * by right.
Qed.

Lemma outputs_take_precedence_witness :
  has_edge {| edges := [(VRef 0, VRef 18); (VRef 0, VRef 9)] |} (VRef 0) (VRef 18)
  ∧ (has_edge {| edges := [(VRef 0, VRef 18); (VRef 0, VRef 9)] |} (VRef 0) (VRef 9) →
     (VRef 9 ∈ [VRef 18] ∧ isinstance linked_by_output_store (VRef 9) [DataFile] = false)
     ∨ (VRef 9 ∈ [VRef 0; VRef 9] ∧ in_edge linked_by_output_store (VRef 9) (VRef 0))).
Proof.
  destruct (outputs_take_precedence linked_by_output_store (VRef 20)
              [VRef 0; VRef 9]
              {| edges := [(VRef 0, VRef 18); (VRef 0, VRef 9)] |}
              linked_by_output_store (VRef 0) (VRef 7) [VRef 18])
    as [Hnonempty _].
  - vm_compute. reflexivity.
  - vm_compute. reflexivity.
  - repeat constructor.
  - left.
  - vm_compute. reflexivity.
  - exists 7. split; reflexivity.
  - destruct Hnonempty as (Hedge & _ & Hnext); [discriminate|]. split.
    + apply Hedge; [left | reflexivity].
    + apply Hnext. vm_compute. reflexivity.
Defined.

(** C3 as stated fails: in the sequence [[p, q]] with [p.outputs] holding one
    material, [p.next_process = q], [q.inputs] empty and
    [q.prev_process = p], the graph does have the edge from [p] to
    [p.next_process]; the second half of the loop body adds it for [q]. *)
Lemma next_process_edge_despite_outputs :
  reads (iter (VRef 20)) linked_by_output_store [VRef 0; VRef 9]
  ∧ reads (getattr (VRef 0) "outputs") linked_by_output_store (VRef 7)
  ∧ list_at linked_by_output_store (VRef 7) [VRef 18]
  ∧ reads (getattr (VRef 0) "next_process") linked_by_output_store (VRef 9)
  ∧ _build_assay_graph (VRef 20) linked_by_output_store
    = (Ok {| edges := [(VRef 0, VRef 18); (VRef 0, VRef 9)] |},
       linked_by_output_store)
  ∧ has_edge {| edges := [(VRef 0, VRef 18); (VRef 0, VRef 9)] |}
      (VRef 0) (VRef 9).
Proof.
  repeat split; try (vm_compute; reflexivity).
  - exists 7. split; reflexivity.
  - right. left.
Qed.

(** C4, as the code has it.  Let [p] be a process of the sequence given to
    the builder.  If [p.inputs] is a non-empty list, the graph has an edge
    from every input to [p], and the second half of the loop body adds no
    edge from [p.prev_process] to [p]: the graph has that edge only when
    [p.prev_process] is itself one of the inputs, or is a process of the
    sequence whose own first half adds it.  If [p.inputs] is empty and
    [p.prev_process] is set, the graph has the edge from [p.prev_process] to
    [p], and it is the only edge the second half adds for [p]. *)
Theorem inputs_take_precedence (h : heap) (seq : val) (ps : list val)
    (G : DiGraph) (h' : heap) (p inputs : val) (items : list val) :
  _build_assay_graph seq h = (Ok G, h') →
  reads (iter seq) h ps →
  p ∈ ps →
  reads (getattr p "inputs") h inputs →
  list_at h inputs items →
  (items ≠ [] →
     (∀ i, i ∈ items → has_edge G i p) ∧
     (∀ pv, reads (getattr p "prev_process") h pv → has_edge G pv p →
        pv ∈ items ∨ (pv ∈ ps ∧ out_edge h pv p))) ∧
  (items = [] → ∀ pv, reads (getattr p "prev_process") h pv → pv ≠ VNone →
     has_edge G pv p ∧
     ∀ u, has_edge G u p → u = pv ∨ (u ∈ ps ∧ out_edge h u p)).
Proof.
  intros Hrun Hseq Hp Hins Hlist.
  apply build_assay_graph_edges in Hrun as [-> (ps' & Hseq' & Hedges)].
  apply (reads_fun _ _ _ _ _ Hseq) in Hseq' as <-.
  apply list_at_reads in Hlist as [Htruthy Hiter].
  assert (∀ u, in_edge h p u →
            (items ≠ [] ∧ u ∈ items)
            ∨ (items = [] ∧ reads (getattr p "prev_process") h u ∧ u ≠ VNone))
    as Hin.
  { intros u (ins' & Hi & Hcase).
    apply (reads_fun _ _ _ _ _ Hins) in Hi as <-.
    destruct Hcase as [(Ht & xs & Hxs & Hu)|(Hf & Hpv & Hset)].
    - apply (reads_fun _ _ _ _ _ Htruthy) in Ht.
      apply (reads_fun _ _ _ _ _ Hiter) in Hxs as <-. left.
      split; [|done]. intros ->. by rewrite bool_decide_eq_true_2 in Ht.
    - apply (reads_fun _ _ _ _ _ Htruthy) in Hf. right.
      split; [|done]. apply negb_false_iff in Hf.
      by apply bool_decide_eq_true in Hf. }
  split.
  - intros Hne. rewrite bool_decide_eq_false_2 in Htruthy by done. split.
    + intros i Hi. apply Hedges. exists p. split; [done|]. right.
      split; [done|]. exists inputs. split; [done|]. left. split; [done|].
      by exists items.
    + intros pv Hpv (q & Hq & [[-> Hout]|[<- Hcase]])%Hedges.
      * by right.
      * apply Hin in Hcase as [(_ & ?)|(? & _)]; [by left | done].
  - intros -> pv Hpv Hset. rewrite bool_decide_eq_true_2 in Htruthy by done.
    split.
    + apply Hedges. exists p. split; [done|]. right. split; [done|].
      exists inputs. split; [done|]. by right.
    + intros u (q & Hq & [[-> Hout]|[<- Hcase]])%Hedges.
      * by right.
      * apply Hin in Hcase as [(? & _)|(_ & Hu & _)]; [done|]. left.
        by apply (reads_fun _ _ _ _ _ Hpv) in Hu.
Qed.

Lemma inputs_take_precedence_witness :
  has_edge {| edges := [(VRef 0, VRef 9); (VRef 18, VRef 9)] |} (VRef 18) (VRef 9)
  ∧ (has_edge {| edges := [(VRef 0, VRef 9); (VRef 18, VRef 9)] |} (VRef 0) (VRef 9) →
     VRef 0 ∈ [VRef 18]
     ∨ (VRef 0 ∈ [VRef 0; VRef 9] ∧ out_edge linked_by_input_store (VRef 0) (VRef 9))).
Proof.
  destruct (inputs_take_precedence linked_by_input_store (VRef 20)
              [VRef 0; VRef 9]
              {| edges := [(VRef 0, VRef 9); (VRef 18, VRef 9)] |}
              linked_by_input_store (VRef 9) (VRef 15) [VRef 18])
    as [Hnonempty _].
  - vm_compute. reflexivity.
  - vm_compute. reflexivity.
  - right. left.
  - vm_compute. reflexivity.
  - exists 15. split; reflexivity.
  - destruct Hnonempty as (Hedge & Hprev); [discriminate|]. split.
    + apply Hedge. left.
    + apply Hprev. vm_compute. reflexivity.
Defined.

(** C4 as stated fails: in the sequence [[q, p]] with [q.outputs] empty,
    [q.next_process = p], [p.inputs] holding one material and
    [p.prev_process = q], the graph does have the edge from [p.prev_process]
    to [p]; the first half of the loop body adds it for [q]. *)
Lemma prev_process_edge_despite_inputs :
  reads (iter (VRef 20)) linked_by_input_store [VRef 0; VRef 9]
  ∧ reads (getattr (VRef 9) "inputs") linked_by_input_store (VRef 15)
  ∧ list_at linked_by_input_store (VRef 15) [VRef 18]
  ∧ reads (getattr (VRef 9) "prev_process") linked_by_input_store (VRef 0)
  ∧ _build_assay_graph (VRef 20) linked_by_input_store
    = (Ok {| edges := [(VRef 0, VRef 9); (VRef 18, VRef 9)] |},
       linked_by_input_store)
  ∧ has_edge {| edges := [(VRef 0, VRef 9); (VRef 18, VRef 9)] |}
      (VRef 0) (VRef 9).
Proof.
  repeat split; try (vm_compute; reflexivity).
  - exists 15. split; reflexivity.
  - left.
Qed.

(** ** Deep copies: what any run preserves *)

Lemma fresh_mono lo hi hi' v : fresh lo hi v → hi ≤ hi' → fresh lo hi' v.
Proof. destruct v; simpl; try done. lia. Qed.

Lemma Forall_fresh_mono lo hi hi' vs :
  Forall (fresh lo hi) vs → hi ≤ hi' → Forall (fresh lo hi') vs.
Proof. intros H Hle. eapply Forall_impl; [done|]. intros v Hv. by eapply fresh_mono. Qed.

Lemma memo_fresh_mono lo hi hi' mm :
  memo_fresh lo hi mm → hi ≤ hi' → memo_fresh lo hi' mm.
Proof. intros H Hle a y Hy. apply H in Hy. lia. Qed.

Lemma closed_alloc lo (h : heap) o :
  closed lo h → Forall (fresh lo (S (length h))) (slots o) → closed lo (h ++ [o]).
Proof.
  intros Hc Ho b o' Hb Hl. rewrite length_app. simpl.
  replace (length h + 1) with (S (length h)) by lia.
  destruct (decide (b < length h)) as [Hlt|Hge].
  - rewrite lookup_app_l in Hl by done.
    eapply Forall_fresh_mono; [by eapply Hc | lia].
  - rewrite lookup_app_r in Hl by lia.
    destruct (b - length h) as [|k] eqn:Hk; simpl in Hl; [|done].
    by injection Hl as <-.
Qed.

Lemma closed_insert lo (h : heap) a o :
  closed lo h → Forall (fresh lo (length h)) (slots o) → closed lo (<[a := o]> h).
Proof.
  intros Hc Ho b o' Hb Hl. rewrite length_insert.
  destruct (decide (a = b)) as [->|Hne].
  - destruct (decide (b < length h)) as [Hlt|Hge].
    + rewrite list_lookup_insert_eq in Hl by done. by injection Hl as <-.
    + rewrite list_insert_ge in Hl by lia. by eapply Hc.
  - rewrite list_lookup_insert_ne in Hl by done. by eapply Hc.
Qed.

Lemma Forall_zip_snd {A} (P : val → Prop) (ks : list A) vs :
  Forall P vs → Forall P ((zip ks vs).*2).
Proof.
  intros H. revert ks. induction H as [|v vs Hv H IH]; intros [|k ks]; simpl;
    constructor; auto.
Qed.

Lemma Forall_flat_unflat (P : val → Prop) vs :
  Forall P vs → Forall P (flat (unflat vs)).
Proof.
  revert vs. fix IH 2. intros vs [|v vs' Hv [|k vs'' Hk H]]; simpl;
    try constructor; auto.
Qed.

Lemma slots_refill (P : val → Prop) o vs :
  Forall P vs → Forall P (slots (refill o vs)).
Proof.
  destruct o; simpl; [done | apply Forall_flat_unflat | apply Forall_zip_snd].
Qed.

Lemma prefix_insert_new (h h2 : heap) o :
  h `prefix_of` h2 → h `prefix_of` <[length h := o]> h2.
Proof.
  intros [k ->]. exists (<[0 := o]> k).
  by rewrite insert_app_r_alt, Nat.sub_diag by lia.
Qed.

Lemma deepcopy_memo_ref fuel a mm :
  deepcopy_memo fuel (VRef a) mm
  = match mm !! a with
    | Some y => ret (VRef y, mm)
    | None =>
        match fuel with
        | O => λ h, (Err OutOfFuel, h)
        | S fuel' =>
            o <- get_obj a ;;
            y <- alloc (blank o) ;;
            r <- copy_all (deepcopy_memo fuel') (slots o) (<[a := y]> mm) ;;
            put_obj y (refill o r.1) ;;
            ret (VRef y, r.2)
        end
    end.
Proof. by destruct fuel. Qed.

Lemma copy_all_ok N copy :
  copy_ok N copy →
  ∀ vs mm h r h',
    copy_all copy vs mm h = (r, h') →
    N ≤ length h → closed N h → memo_fresh N (length h) mm →
    h `prefix_of` h' ∧ closed N h' ∧
    match r with
    | Ok (vs', mm') =>
        Forall (fresh N (length h')) vs' ∧ memo_fresh N (length h') mm'
        ∧ length vs' = length vs
    | Err _ => True
    end.
Proof.
  intros Hcopy. induction vs as [|v vs IH]; intros mm h r h' H HN Hc Hm; simpl in H.
  - injection H as <- <-. done.
  - apply bind_inv in H as [([v' mm1] & h1 & H1 & H)|(e & H1 & ->)].
    2: { by destruct (Hcopy _ _ _ _ _ H1 HN Hc Hm) as (? & ? & _). }
    destruct (Hcopy _ _ _ _ _ H1 HN Hc Hm) as (Hp1 & Hc1 & Hv1 & Hm1).
    pose proof (prefix_length _ _ Hp1) as Hl1.
    assert (N ≤ length h1) as HN1 by lia.
    apply bind_inv in H as [([vs' mm2] & h2 & H2 & H)|(e & H2 & ->)].
    2: { destruct (IH _ _ _ _ H2 HN1 Hc1 Hm1) as (? & ? & _).
         split; [by etrans|done]. }
    destruct (IH _ _ _ _ H2 HN1 Hc1 Hm1) as (Hp2 & Hc2 & Hv2 & Hm2 & Hlen).
    pose proof (prefix_length _ _ Hp2) as Hl2.
    injection H as <- <-. split; [by etrans|]. split; [done|]. simpl.
    split; [|split; [done|by rewrite Hlen]].
    constructor; [by eapply fresh_mono | done].
Qed.

Lemma deepcopy_memo_ok N fuel : copy_ok N (deepcopy_memo fuel).
Proof.
  induction fuel as [|fuel IH]; intros x mm h r h' H HN Hc Hm.
  - destruct x as [| | | |a]; try (injection H as <- <-; done).
    rewrite deepcopy_memo_ref in H. destruct (mm !! a) as [y|] eqn:Hy.
    + injection H as <- <-. split; [done|]. split; [done|]. split; [|done].
      by apply (Hm a).
    + by injection H as <- <-.
  - destruct x as [| | | |a]; try (injection H as <- <-; done).
    rewrite deepcopy_memo_ref in H. destruct (mm !! a) as [y|] eqn:Hy.
    { injection H as <- <-. split; [done|]. split; [done|]. split; [|done].
      by apply (Hm a). }
    apply bind_inv in H as [(o & h0 & Ho & H)|(e & Ho & ->)].
    2: { apply pure_get_obj in Ho as ->. done. }
    apply pure_get_obj in Ho as ->.
    rewrite (bind_run _ _ _ _ _ (alloc_run _ _)) in H.
    assert (closed N (h ++ [blank o])) as Hc0.
    { apply closed_alloc; [done|]. by destruct o. }
    assert (memo_fresh N (length (h ++ [blank o])) (<[a := length h]> mm)) as Hm0.
    { rewrite length_app. simpl. intros a' y'.
      destruct (decide (a = a')) as [->|Hne].
      - rewrite lookup_insert_eq. intros [= <-]. lia.
      - rewrite lookup_insert_ne by done. intros Hy'%Hm. lia. }
    assert (N ≤ length (h ++ [blank o])) as HN0 by (rewrite length_app; lia).
    apply bind_inv in H as [([vs' mm'] & h2 & Hall & H)|(e & Hall & ->)].
    2: { destruct (copy_all_ok N _ IH _ _ _ _ _ Hall HN0 Hc0 Hm0) as (Hp & ? & _).
         split; [|done]. etrans; [|done]. by apply prefix_app_r. }
    destruct (copy_all_ok N _ IH _ _ _ _ _ Hall HN0 Hc0 Hm0)
      as (Hp & Hc2 & Hv & Hm2 & _).
    pose proof (prefix_length _ _ Hp) as Hl. rewrite length_app in Hl. simpl in Hl.
    injection H as <- <-. simpl.
    split; [|split; [|split]].
    + apply prefix_insert_new. etrans; [|done]. by apply prefix_app_r.
    + apply closed_insert; [done|]. by apply slots_refill.
    + rewrite length_insert. lia.
    + by rewrite length_insert.
Qed.

Lemma deepcopy_ok N fuel x h r h' :
  deepcopy fuel x h = (r, h') →
  N ≤ length h → closed N h →
  h `prefix_of` h' ∧ closed N h' ∧
  match r with Ok v => fresh N (length h') v | Err _ => True end.
Proof.
  unfold deepcopy. intros H HN Hc.
  assert (memo_fresh N (length h) ∅) as Hm by (intros a y; by rewrite lookup_empty).
  apply bind_inv in H as [([v mm] & h1 & H1 & H)|(e & H1 & ->)].
  - destruct (deepcopy_memo_ok N fuel _ _ _ _ _ H1 HN Hc Hm) as (? & ? & ? & _).
    by injection H as <- <-.
  - by destruct (deepcopy_memo_ok N fuel _ _ _ _ _ H1 HN Hc Hm) as (? & ? & _).
Qed.

Lemma closed_top (h : heap) : closed (length h) h.
Proof. intros b o Hb Hl. apply lookup_lt_Some in Hl. lia. Qed.

(** The copy of an object is a new object of the same kind, and of the same
    class when it is an instance. *)
Lemma deepcopy_shape fuel (a : addr) (h : heap) o v h' :
  deepcopy fuel (VRef a) h = (Ok v, h') →
  h !! a = Some o →
  v = VRef (length h) ∧ ∃ vs, h' !! length h = Some (refill o vs).
Proof.
  unfold deepcopy. intros H Ho.
  apply bind_ok in H as ([v' mm] & h1 & H1 & H). injection H as <- <-.
  rewrite deepcopy_memo_ref, lookup_empty in H1. destruct fuel as [|fuel]; [done|].
  rewrite (bind_run _ _ _ _ _ (get_obj_run _ _ _ Ho)) in H1.
  rewrite (bind_run _ _ _ _ _ (alloc_run _ _)) in H1.
  apply bind_ok in H1 as ([vs mm'] & h2 & Hall & H1). injection H1 as <- <- <-.
  split; [done|]. exists vs. simpl.
  destruct (copy_all_ok (length h) _ (deepcopy_memo_ok (length h) fuel)
              _ _ _ _ _ Hall) as (Hp & _).
  - rewrite length_app. lia.
  - apply closed_alloc; [apply closed_top | by destruct o].
  - intros a' y. rewrite length_app. simpl.
    destruct (decide (a = a')) as [->|Hne].
    + rewrite lookup_insert_eq. intros [= <-]. lia.
    + by rewrite lookup_insert_ne, lookup_empty.
  - apply list_lookup_insert_eq.
    apply prefix_length in Hp. rewrite length_app in Hp. simpl in Hp. lia.
Qed.

(** ** Deep copies: termination on a well-formed store *)

Lemma unvisited_mono n (mm mm' : memo) :
  mm ⊆ mm' → unvisited n mm' ≤ unvisited n mm.
Proof.
  intros Hsub. apply subseteq_size. apply subseteq_dom in Hsub. set_solver.
Qed.

Lemma unvisited_insert n (mm : memo) a y :
  a < n → mm !! a = None → unvisited n (<[a := y]> mm) < unvisited n mm.
Proof.
  intros Ha Hnone. apply subset_size. rewrite dom_insert_L.
  apply not_elem_of_dom in Hnone.
  assert (a ∈ (set_seq 0 n : gset nat)) by (apply elem_of_set_seq; lia).
  split; [set_solver|]. intros Hsub.
  assert (a ∈ (set_seq 0 n ∖ dom mm : gset nat)) as Hin by set_solver.
  apply Hsub in Hin. set_solver.
Qed.

Lemma unvisited_le n (mm : memo) : unvisited n mm ≤ n.
Proof.
  unfold unvisited. etrans; [apply (subseteq_size _ (set_seq 0 n)); set_solver|].
  by rewrite size_set_seq.
Qed.

Lemma copy_all_total h0 fuel copy :
  copy_total h0 fuel copy →
  ∀ vs mm h,
    h0 `prefix_of` h → Forall (fresh 0 (length h0)) vs →
    memo_old (length h0) mm → unvisited (length h0) mm ≤ fuel →
    ∃ vs' mm' h',
      copy_all copy vs mm h = (Ok (vs', mm'), h') ∧ h `prefix_of` h' ∧ mm ⊆ mm'
      ∧ memo_old (length h0) mm'.
Proof.
  intros Hcopy. induction vs as [|v vs IH]; intros mm h Hp Hvs Hold Hfuel; simpl.
  - by exists [], mm, h.
  - apply Forall_cons in Hvs as [Hv Hvs].
    destruct (Hcopy v mm h Hp Hv Hold Hfuel) as (v' & mm1 & h1 & H1 & Hp1 & Hs1 & Hold1).
    destruct (IH mm1 h1) as (vs' & mm2 & h2 & H2 & Hp2 & Hs2 & Hold2);
      [by etrans | done | done | |].
    { pose proof (unvisited_mono (length h0) _ _ Hs1). lia. }
    exists (v' :: vs'), mm2, h2. split; [|split; [by etrans|split; [by etrans|done]]].
    rewrite (bind_run _ _ _ _ _ H1). simpl. by rewrite (bind_run _ _ _ _ _ H2).
Qed.

Lemma deepcopy_memo_total h0 :
  wf h0 → ∀ fuel, copy_total h0 fuel (deepcopy_memo fuel).
Proof.
  intros Hwf fuel. induction fuel as [|fuel IH]; intros x mm h Hp Hx Hold Hfuel.
  - destruct x as [| | | |a]; try (by eexists _, mm, h).
    rewrite deepcopy_memo_ref. destruct (mm !! a) as [y|] eqn:Hy.
    + by exists (VRef y), mm, h.
    + simpl in Hx. pose proof (unvisited_insert _ _ _ 0 (proj2 Hx) Hy). lia.
  - destruct x as [| | | |a]; try (by eexists _, mm, h).
    rewrite deepcopy_memo_ref. destruct (mm !! a) as [y|] eqn:Hy.
    { by exists (VRef y), mm, h. }
    simpl in Hx. destruct Hx as [_ Ha].
    destruct (lookup_lt_is_Some_2 h0 a Ha) as [o Ho].
    pose proof (prefix_lookup_Some _ _ _ _ Ho Hp) as Ho'.
    rewrite (bind_run _ _ _ _ _ (get_obj_run _ _ _ Ho')).
    rewrite (bind_run _ _ _ _ _ (alloc_run _ _)).
    destruct (copy_all_total h0 fuel _ IH (slots o) (<[a := length h]> mm)
                (h ++ [blank o]))
      as (vs' & mm' & h2 & Hall & Hp2 & Hs2 & Hold2).
    + by apply prefix_app_r.
    + by apply (Hwf a o); [lia|].
    + intros a'. rewrite dom_insert_L. intros [->%elem_of_singleton|?]%elem_of_union;
        [done | by apply Hold].
    + pose proof (unvisited_insert (length h0) mm a (length h) Ha Hy). lia.
    + rewrite (bind_run _ _ _ _ _ Hall). simpl.
      eexists _, mm', _. split; [reflexivity|]. split; [|split; [|done]].
      * apply prefix_insert_new. etrans; [|done]. by apply prefix_app_r.
      * etrans; [|done]. by apply insert_subseteq.
Qed.

(** On a well-formed store a deep copy with fuel for every object returns. *)
Lemma deepcopy_total h0 h fuel x :
  wf h0 → h0 `prefix_of` h → fresh 0 (length h0) x → length h0 ≤ fuel →
  ∃ v h', deepcopy fuel x h = (Ok v, h').
Proof.
  intros Hwf Hp Hx Hfuel.
  destruct (deepcopy_memo_total h0 Hwf fuel x ∅ h) as (v & mm & h' & H & _);
    [done | done | | |].
  - intros a. by rewrite dom_empty_L.
  - pose proof (unvisited_le (length h0) ∅). lia.
  - exists v, h'. unfold deepcopy. by rewrite (bind_run _ _ _ _ _ H).
Qed.

(** ** Batches of materials *)

Lemma material_class_plain c :
  existsb (issubclass c) [Source; Sample; Material] = true →
  find_property c "name" = None ∧ find_property c "characteristics" = None.
Proof. destruct c; intros H; first [done | by vm_compute in H]. Qed.

Lemma attr_set_slots (P : val → Prop) k v (d : attrs) :
  Forall P (d.*2) → P v → Forall P ((attr_set k v d).*2).
Proof.
  intros Hd Hv. induction d as [|[k' v'] d IH]; simpl.
  - by constructor.
  - simpl in Hd. apply Forall_cons in Hd as [Hv' Hd].
    destruct (decide (k = k')); simpl; constructor; auto.
Qed.

Lemma join_inv sep vs h v h' :
  join sep vs h = (Ok v, h') →
  h' = h ∧ ∃ ss, texts vs = Some ss ∧ v = VStr (String.concat sep ss).
Proof. unfold join. destruct (texts vs); intros [= <- <-]; eauto. Qed.

Lemma getattr_plain_inv (h : heap) (a : addr) c d name v h' :
  h !! a = Some (OInst c d) → find_property c name = None →
  getattr (VRef a) name h = (Ok v, h') → h' = h ∧ attr_get name d = Some v.
Proof.
  intros Ha Hp. unfold getattr.
  rewrite (bind_run _ _ _ _ _ (get_obj_run _ _ _ Ha)), Hp.
  by destruct (attr_get name d); intros [= <- <-].
Qed.

Lemma create_material_ok fuel (h : heap) (m : addr) c d l x r h' :
  h !! m = Some (OInst c d) →
  existsb (issubclass c) [Source; Sample; Material] = true →
  create_material fuel (VRef m) l x h = (r, h') →
  h `prefix_of` h' ∧ closed (length h) h' ∧
  match r with
  | Ok l' =>
      l' = l ++ [VRef (length h)] ∧ length h < length h'
      ∧ copy_named h' c d (length h) x
  | Err _ => True
  end.
Proof.
  intros Hm Hc H. apply material_class_plain in Hc as [Hname _].
  unfold create_material in H.
  apply bind_inv in H as [(v & h1 & Hcopy & H)|(e & Hcopy & ->)].
  2: { by destruct (deepcopy_ok (length h) _ _ _ _ _ Hcopy (Nat.le_refl _)
                       (closed_top h)) as (? & ? & _). }
  destruct (deepcopy_ok (length h) _ _ _ _ _ Hcopy (Nat.le_refl _) (closed_top h))
    as (Hp & Hcl & _).
  destruct (deepcopy_shape _ _ _ _ _ _ Hcopy Hm) as (-> & vs & Hnew). simpl in Hnew.
  pose proof (prefix_lookup_Some _ _ _ _ Hm Hp) as Hm1.
  pose proof (lookup_lt_Some _ _ _ Hnew) as Hlt.
  apply bind_inv in H as [(name & h2 & Hget & H)|(e & Hget & ->)].
  2: { by apply pure_getattr in Hget as ->. }
  apply (getattr_plain_inv _ _ _ _ _ _ _ Hm1 Hname) in Hget as [-> Hd].
  apply bind_inv in H as [(name' & h2 & Hjoin & H)|(e & Hjoin & ->)].
  2: { by apply pure_join in Hjoin as ->. }
  apply join_inv in Hjoin as (-> & ss & Hss & ->).
  rewrite (bind_run _ _ _ _ _ (setattr_plain_run _ _ _ _ _ _ Hnew Hname)) in H.
  injection H as <- <-.
  split; [by apply prefix_insert_new|]. split.
  - apply closed_insert; [done|]. simpl. apply attr_set_slots; [|done].
    by apply (Hcl (length h) _ (Nat.le_refl _) Hnew).
  - rewrite length_insert. split; [done|]. split; [done|].
    destruct name as [| | |s|]; try done. simpl in Hss. injection Hss as <-.
    eexists _, s. split; [done|]. split; [by eapply lookup_put|].
    by rewrite attr_get_set_eq.
Qed.

Lemma region_prefix lo hi (h h' : heap) :
  region lo hi h → hi ≤ length h → h `prefix_of` h' → region lo hi h'.
Proof.
  intros Hr Hhi Hp b o Hb Hl. apply (Hr b o Hb).
  by rewrite (prefix_lookup_lt h h' b) by (done || lia).
Qed.

Lemma regions_prefix (h h' : heap) ys top :
  regions h ys top → top ≤ length h → h `prefix_of` h' → regions h' ys top.
Proof.
  intros Hr Htop Hp. induction ys as [|y ys IH]; [done|].
  destruct Hr as (Hlt & Hle & Hreg & Hr). simpl.
  split; [done|]. split; [done|]. split; [|by apply IH].
  eapply region_prefix; [done | lia | done].
Qed.

Lemma regions_snoc (h : heap) ys top top' :
  regions h ys top → top < top' → region top top' h →
  regions h (ys ++ [top]) top'.
Proof.
  intros Hr Hlt Hreg. induction ys as [|y ys IH]; simpl.
  - done.
  - destruct Hr as (Hy & Hle & Hry & Hr).
    assert (default top' (head (ys ++ [top])) = default top (head ys)) as ->
      by (by destruct ys).
    split; [done|]. split; [lia|]. split; [done|]. by apply IH.
Qed.

Lemma closed_region lo (h : heap) : closed lo h → region lo (length h) h.
Proof. intros Hc b o [Hb _]. by apply Hc. Qed.

Lemma regions_lower (h : heap) ys top j y :
  regions h ys top → ys !! j = Some y → default top (head ys) ≤ y.
Proof.
  revert j. induction ys as [|y0 ys IH]; intros j Hr Hj; [done|].
  destruct Hr as (Hlt & _ & _ & Hr). destruct j as [|j]; simpl in *.
  - injection Hj as <-. done.
  - specialize (IH j Hr Hj). lia.
Qed.



Lemma copy_named_prefix (h h' : heap) c d y x :
  copy_named h c d y x → h `prefix_of` h' → copy_named h' c d y x.
Proof.
  intros (d' & s & ? & Hy & ?) Hp. exists d', s.
  split; [done|]. split; [|done]. by eapply prefix_lookup_Some.
Qed.

(** The loop of [batch_create_materials], whatever its outcome: the store it
    starts from is only extended, and the copies made so far start
    consecutive closed regions above it. *)
Lemma create_loop_ok fuel (h0 : heap) (m : addr) c d :
  h0 !! m = Some (OInst c d) →
  existsb (issubclass c) [Source; Sample; Material] = true →
  ∀ xs xs0 ys h r h',
    fold_m xs (VRef <$> ys) (create_material fuel (VRef m)) h = (r, h') →
    h0 `prefix_of` h → regions h ys (length h) →
    Forall (λ y, length h0 ≤ y) ys → Forall2 (copy_named h c d) ys xs0 →
    h0 `prefix_of` h' ∧
    match r with
    | Ok l' =>
        ∃ ys', l' = VRef <$> ys' ∧ regions h' ys' (length h')
               ∧ Forall (λ y, length h0 ≤ y) ys'
               ∧ Forall2 (copy_named h' c d) ys' (xs0 ++ xs)
    | Err _ => True
    end.
Proof.
  intros Hm Hc. induction xs as [|x xs IH]; intros xs0 ys h r h' H Hp Hreg Hys Hnamed;
    simpl in H.
  - injection H as <- <-. split; [done|]. exists ys. by rewrite app_nil_r.
  - pose proof (prefix_lookup_Some _ _ _ _ Hm Hp) as Hm'.
    apply bind_inv in H as [(l1 & h1 & Hone & H)|(e & Hone & ->)].
    2: { destruct (create_material_ok _ _ _ _ _ _ _ _ _ Hm' Hc Hone) as (? & _).
         split; [by etrans | done]. }
    destruct (create_material_ok _ _ _ _ _ _ _ _ _ Hm' Hc Hone)
      as (Hp1 & Hcl & -> & Hlt & Hnew).
    replace ((VRef <$> ys) ++ [VRef (length h)]) with (VRef <$> (ys ++ [length h]))
      in H by (by rewrite fmap_app).
    apply (IH (xs0 ++ [x])) in H as [Hp' Hr].
    + split; [done|]. destruct r as [l'|]; [|done].
      destruct Hr as (ys' & ? & ? & ? & Hall). exists ys'.
      by rewrite <- app_assoc in Hall.
    + by etrans.
    + apply regions_snoc; [|done|by apply closed_region].
      by eapply regions_prefix.
    + apply Forall_app. split; [done|]. constructor; [|done].
      by apply prefix_length in Hp.
    + apply Forall2_app; [|by constructor].
      eapply Forall2_impl; [done|]. intros y x' Hy. by eapply copy_named_prefix.
Qed.

(** The whole batch returns on a well-formed store with fuel for every
    object of it. *)
Lemma create_material_total fuel (h0 h : heap) (m : addr) c d s l x :
  wf h0 → h0 `prefix_of` h → length h0 ≤ fuel →
  h0 !! m = Some (OInst c d) →
  existsb (issubclass c) [Source; Sample; Material] = true →
  attr_get "name" d = Some (VStr s) →
  ∃ l' h', create_material fuel (VRef m) l x h = (Ok l', h').
Proof.
  intros Hwf Hp Hfuel Hm Hc Hs.
  destruct (material_class_plain _ Hc) as [Hname _].
  pose proof (prefix_lookup_Some _ _ _ _ Hm Hp) as Hm'.
  destruct (deepcopy_total h0 h fuel (VRef m) Hwf Hp) as (v & h1 & Hcopy); [|done|].
  { simpl. apply lookup_lt_Some in Hm. lia. }
  destruct (deepcopy_ok (length h) _ _ _ _ _ Hcopy (Nat.le_refl _) (closed_top h))
    as (Hp1 & _).
  destruct (deepcopy_shape _ _ _ _ _ _ Hcopy Hm') as (-> & vs & Hnew). simpl in Hnew.
  pose proof (prefix_lookup_Some _ _ _ _ Hm' Hp1) as Hm1.
  eexists _, _. unfold create_material.
  rewrite (bind_run _ _ _ _ _ Hcopy).
  rewrite (bind_run _ _ _ _ _ (getattr_plain_run _ _ _ _ _ _ Hm1 Hname Hs)).
  assert (join "-" [VStr s; VStr (str x)] h1
          = (Ok (VStr (String.concat "-" [s; str x])), h1)) as Hjoin by done.
  rewrite (bind_run _ _ _ _ _ Hjoin).
  rewrite (bind_run _ _ _ _ _ (setattr_plain_run _ _ _ _ _ _ Hnew Hname)).
  reflexivity.
Qed.

Lemma create_loop_total fuel (h0 : heap) (m : addr) c d s :
  wf h0 → length h0 ≤ fuel →
  h0 !! m = Some (OInst c d) →
  existsb (issubclass c) [Source; Sample; Material] = true →
  attr_get "name" d = Some (VStr s) →
  ∀ xs l h, h0 `prefix_of` h →
    ∃ l' h', fold_m xs l (create_material fuel (VRef m)) h = (Ok l', h').
Proof.
  intros Hwf Hfuel Hm Hc Hs. induction xs as [|x xs IH]; intros l h Hp; simpl.
  - by eexists _, _.
  - destruct (create_material_total fuel h0 h m c d s l x) as (l1 & h1 & H1);
      [done..|].
    pose proof (prefix_lookup_Some _ _ _ _ Hm Hp) as Hm'.
    destruct (create_material_ok _ _ _ _ _ _ _ _ _ Hm' Hc H1) as (Hp1 & _).
    destruct (IH l1 h1) as (l' & h' & H'); [by etrans|].
    exists l', h'. by rewrite (bind_run _ _ _ _ _ H1).
Qed.

Lemma regions_NoDup (h : heap) ys top : regions h ys top → NoDup ys.
Proof.
  induction ys as [|y ys IH]; intros Hr; [constructor|].
  destruct Hr as (Hlt & _ & _ & Hr). constructor; [|by apply IH].
  intros (j & Hj)%list_elem_of_lookup.
  pose proof (regions_lower _ _ _ _ _ Hr Hj). lia.
Qed.

(** What a run of [batch_create_materials] on a supported prototype leaves,
    whatever its outcome. *)
Lemma batch_create_materials_ok fuel (h : heap) (m : addr) c d n r h' :
  h !! m = Some (OInst c d) →
  existsb (issubclass c) [Source; Sample; Material] = true →
  batch_create_materials fuel (VRef m) n h = (r, h') →
  h `prefix_of` h' ∧
  match r with
  | Ok l =>
      ∃ ys z, n = VInt z ∧ l = VRef <$> ys ∧ regions h' ys (length h')
              ∧ Forall (λ y, length h ≤ y) ys
              ∧ Forall2 (copy_named h' c d) ys (seqZ 0 z)
  | Err _ => True
  end.
Proof.
  intros Hm Hc H. unfold batch_create_materials in H.
  assert (isinstanceM (VRef m) [Source; Sample; Material] h = (Ok true, h)) as Hi
    by (unfold isinstanceM, isinstance; by rewrite Hm, Hc).
  rewrite (bind_run _ _ _ _ _ Hi) in H.
  apply bind_inv in H as [(xs & h1 & Hrange & H)|(e & Hrange & ->)].
  2: { by apply pure_range in Hrange as ->. }
  destruct n as [|z| | |]; try done. injection Hrange as <- <-.
  change (@nil val) with (VRef <$> []) in H.
  apply (create_loop_ok fuel h m c d Hm Hc _ []) in H as [Hp Hr]; try done.
  split; [done|]. destruct r as [l|]; [|done].
  destruct Hr as (ys & ? & ? & ? & ?). by exists ys, z.
Qed.

(** C5.  For a prototype that is an instance of [Source], [Sample] or
    [Material] (subclasses included) with a text name, in a store without
    dangling references, [batch_create_materials(m, n)] returns a list of
    length [n] (empty for negative [n]); its [i]-th item is an instance of
    the prototype's class named [m.name + '-' + str(i)]; every item is an
    object that did not exist before the call, hence is not the prototype,
    and no two items are the same object. *)
Theorem batch_create_materials_names (fuel : nat) (h : heap) (m : addr)
    (c : cls) (d : attrs) (s : string) (n : Z) :
  wf h →
  h !! m = Some (OInst c d) →
  isinstance h (VRef m) [Source; Sample; Material] = true →
  attr_get "name" d = Some (VStr s) →
  length h ≤ fuel →
  ∃ l h',
    batch_create_materials fuel (VRef m) (VInt n) h = (Ok l, h')
    ∧ length l = Z.to_nat n
    ∧ (∀ i, i < Z.to_nat n →
         ∃ y, l !! i = Some (VRef y) ∧ length h ≤ y ∧ y ≠ m
              ∧ isinstance h' (VRef y) [c] = true
              ∧ getattr (VRef y) "name" h'
                = (Ok (VStr (s +:+ "-" +:+ str (Z.of_nat i))), h'))
    ∧ NoDup l.
Proof.
  intros Hwf Hm Hi Hs Hfuel.
  assert (existsb (issubclass c) [Source; Sample; Material] = true) as Hc
    by (simpl in Hi; by rewrite Hm in Hi).
  destruct (create_loop_total fuel h m c d s Hwf Hfuel Hm Hc Hs (seqZ 0 n) [] h)
    as (l & h' & Hloop); [done|].
  assert (batch_create_materials fuel (VRef m) (VInt n) h = (Ok l, h')) as Hrun.
  { unfold batch_create_materials.
    assert (isinstanceM (VRef m) [Source; Sample; Material] h = (Ok true, h)) as Hi'
      by (unfold isinstanceM; by rewrite Hi).
    rewrite (bind_run _ _ _ _ _ Hi'). simpl.
    by rewrite (bind_run _ _ _ _ _ (eq_refl : ret (seqZ 0 n) h = (Ok _, h))). }
  exists l, h'. split; [done|].
  destruct (batch_create_materials_ok _ _ _ _ _ _ _ _ Hm Hc Hrun)
    as (Hp & ys & z & [= <-] & -> & Hreg & Hys & Hnamed).
  pose proof (Forall2_length _ _ _ Hnamed) as Hlen. rewrite length_seqZ in Hlen.
  split; [by rewrite length_fmap|]. split.
  - intros i Hi'.
    destruct (lookup_lt_is_Some_2 ys i) as [y Hy]; [lia|].
    assert (seqZ 0 n !! i = Some (Z.of_nat i)) as Hx.
    { apply lookup_seqZ. lia. }
    destruct (Forall2_lookup_lr _ _ _ _ _ _ Hnamed Hy Hx) as (d' & s' & Hs' & Hy' & Hn).
    assert (s' = s) as -> by congruence.
    pose proof (proj1 (Forall_lookup _ _) Hys i y Hy) as Hge. simpl in Hge.
    exists y. split; [by rewrite list_lookup_fmap, Hy|]. split; [done|].
    split; [apply lookup_lt_Some in Hm; lia|]. split.
    + simpl. rewrite Hy'. simpl. unfold issubclass.
      rewrite bool_decide_eq_true_2; [done|]. by destruct c; left.
    + apply (getattr_plain_run _ _ _ _ _ _ Hy'); [|done].
      by apply material_class_plain.
  - apply NoDup_fmap_2; [by intros ?? [= ->]|]. by eapply regions_NoDup.
Qed.

Lemma wfb_wf h : wfb h = true → wf h.
Proof.
  unfold wfb. intros H b o _ Hb.
  rewrite forallb_forall in H. apply list_elem_of_lookup_2, list_elem_of_In in Hb.
  specialize (H o Hb). rewrite forallb_forall in H.
  apply Forall_forall. intros v Hv%list_elem_of_In. specialize (H v Hv).
  destruct v; simpl; try done. apply bool_decide_eq_true in H. lia.
Qed.

Lemma batch_create_materials_names_witness :
  ∃ l h',
    batch_create_materials 2 (VRef 0) (VInt 3) source_store = (Ok l, h')
    ∧ length l = 3
    ∧ (∃ y, l !! 2 = Some (VRef y) ∧ 2 ≤ y
            ∧ getattr (VRef y) "name" h' = (Ok (VStr "S-2"), h'))
    ∧ NoDup l.
Proof.
  destruct (batch_create_materials_names 2 source_store 0 Source
              [("_Commentable__comments", VNone); ("id", VStr EmptyString);
               ("name", VStr "S"); ("characteristics", VRef 1)] "S" 3)
    as (l & h' & Hrun & Hlen & Hnames & Hnd).
  - apply wfb_wf. reflexivity.
  - reflexivity.
  - reflexivity.
  - reflexivity.
  - vm_compute. lia.
  - exists l, h'. split; [exact Hrun|]. split; [exact Hlen|]. split; [|exact Hnd].
    destruct (Hnames 2) as (y & Hy & Hge & _ & _ & Hname); [vm_compute; lia|].
    exists y. split; [exact Hy|]. split; [exact Hge|]. exact Hname.
Defined.

(** The batch naming of the specification: three copies of a source named
    [S] are named [S-0], [S-1] and [S-2]. *)
Example batch_create_materials_S :
  (l <- batch_create_materials 2 (VRef 0) (VInt 3) ;;
   map_m (λ y, getattr y "name") l) source_store
  = (Ok [VStr "S-0"; VStr "S-1"; VStr "S-2"],
     (batch_create_materials 2 (VRef 0) (VInt 3) source_store).2).
Proof. vm_compute. reflexivity. Qed.

(** C5 as stated fails: the name of a prototype is stored unchecked, and for
    [Source(name=None)], an instance of [Source], the call
    [batch_create_materials(m, 1)] raises [TypeError] where the new name is
    joined, and returns no list. *)
Lemma batch_create_materials_name_None_raises :
  isinstance unnamed_source_store (VRef 0) [Source; Sample; Material] = true
  ∧ getattr (VRef 0) "name" unnamed_source_store
    = (Ok VNone, unnamed_source_store)
  ∧ (batch_create_materials 8 (VRef 0) (VInt 1) unnamed_source_store).1
    = Err (PyExc TypeError).
Proof. repeat split; vm_compute; reflexivity. Qed.

(** ** Tracking what a computation may write *)

Lemma keeps_insert (h0 h : heap) a o :
  keeps h0 h → length h0 ≤ a →
  Forall (fresh (length h0) (length h)) (slots o) →
  keeps h0 (<[a := o]> h).
Proof.
  intros [[k ->] Hc] Ha Ho. split; [|by apply closed_insert].
  exists (<[a - length h0 := o]> k). by rewrite insert_app_r_alt.
Qed.

Lemma keeps_refl (h : heap) : keeps h h.
Proof. split; [done | apply closed_top]. Qed.

Lemma tracked_ret {A} h0 vs (a : A) Q :
  covers h0 vs (Q a) → tracked h0 vs (ret a) Q.
Proof. intros Hcov h r h' [= <- <-] Hk Hvs. split; [done|]. split; [done|]. by apply Hcov. Qed.

Lemma tracked_raise {A} h0 vs e (Q : A → list val) : tracked h0 vs (raise e) Q.
Proof. by intros h r h' [= <- <-] Hk Hvs. Qed.

Lemma tracked_bind {A B} h0 vs (m : M A) (k : A → M B) Q R :
  tracked h0 vs m Q → (∀ a, tracked h0 (Q a ++ vs) (k a) R) →
  tracked h0 vs (bind m k) R.
Proof.
  intros Hm Hk h r h' H Hkeep Hvs.
  apply bind_inv in H as [(a & h1 & H1 & H)|(e & H1 & ->)].
  - destruct (Hm _ _ _ H1 Hkeep Hvs) as (Hk1 & Hl1 & HQ).
    destruct (Hk a _ _ _ H Hk1) as (Hk2 & Hl2 & HR).
    + apply Forall_app. split; [done|]. by eapply Forall_fresh_mono.
    + split; [done|]. split; [lia|done].
  - by destruct (Hm _ _ _ H1 Hkeep Hvs) as (? & ? & _).
Qed.

Lemma tracked_weaken {A} h0 vs vs' (m : M A) Q Q' :
  tracked h0 vs m Q → covers h0 vs' vs → (∀ a, covers h0 (Q a ++ vs') (Q' a)) →
  tracked h0 vs' m Q'.
Proof.
  intros Hm Hpre Hpost h r h' H Hkeep Hvs.
  destruct (Hm _ _ _ H Hkeep (Hpre _ Hvs)) as (Hk1 & Hl1 & HQ).
  split; [done|]. split; [done|]. destruct r as [a|]; [|done].
  apply Hpost, Forall_app. split; [done|]. by eapply Forall_fresh_mono.
Qed.

Lemma tracked_pure {A} h0 vs (m : M A) : pure m → tracked h0 vs m nothing.
Proof.
  intros Hp h r h' H Hkeep Hvs. apply Hp in H as ->.
  split; [done|]. split; [done|]. destruct r; [constructor | done].
Qed.

Lemma store_inv (a : addr) k x (h : heap) r h' :
  store a k x h = (r, h') →
  h' = h ∨ ∃ c d, h !! a = Some (OInst c d)
                  ∧ h' = <[a := OInst c (attr_set k x d)]> h.
Proof.
  unfold store, get_obj, bind. destruct (h !! a) as [[| |c d]|] eqn:Ha;
    intros [= <- <-]; eauto.
Qed.

Lemma fset_shape c name p :
  find_property c name = Some p →
  ∃ ts ae k, fset p = (λ self x, accepts ts ae x ;; store self k x).
Proof.
  intros H. apply find_property_listed in H. unfold all_properties in H.
  repeat (apply elem_of_cons in H as [->|H]; [by eexists _, _, _|]).
  by apply elem_of_nil in H.
Qed.

Lemma get_obj_inv (a : addr) (h : heap) o h' :
  get_obj a h = (Ok o, h') → h' = h ∧ h !! a = Some o.
Proof. unfold get_obj. by destruct (h !! a); intros [= <- <-]. Qed.

Lemma setattr_inv v name x (h : heap) r h' :
  setattr v name x h = (r, h') →
  h' = h ∨ ∃ a c d k, v = VRef a ∧ h !! a = Some (OInst c d)
                      ∧ h' = <[a := OInst c (attr_set k x d)]> h.
Proof.
  unfold setattr. destruct v as [| | | |a]; try (intros [= <- <-]; by left).
  intros H. apply bind_inv in H as [(o & h1 & Ho & H)|(e & Ho & ->)].
  2: { left. by apply pure_get_obj in Ho. }
  apply get_obj_inv in Ho as [-> Ho].
  destruct o as [| |c d]; try (injection H as <- <-; by left).
  destruct (find_property c name) as [p|] eqn:Hp.
  - destruct (fset_shape _ _ _ Hp) as (ts & ae & k & Hset). rewrite Hset in H.
    apply bind_inv in H as [([] & h1 & Hacc & H)|(e & Hacc & ->)].
    2: { left. by apply pure_accepts in Hacc. }
    apply pure_accepts in Hacc as ->.
    apply store_inv in H as [->|(c' & d' & Ha & ->)]; [by left|].
    right. by exists a, c', d', k.
  - injection H as <- <-. right. by exists a, c, d, name.
Qed.

Lemma append_inv l x (h : heap) r h' :
  append l x h = (r, h') →
  h' = h ∨ ∃ a vs, l = VRef a ∧ h !! a = Some (OList vs)
                   ∧ h' = <[a := OList (vs ++ [x])]> h.
Proof.
  unfold append. destruct l as [| | | |a]; try (intros [= <- <-]; by left).
  intros H. apply bind_inv in H as [(o & h1 & Ho & H)|(e & Ho & ->)].
  2: { left. by apply pure_get_obj in Ho. }
  apply get_obj_inv in Ho as [-> Ho].
  destruct o as [vs| |]; try (injection H as <- <-; by left).
  injection H as <- <-. right. by exists a, vs.
Qed.

Lemma covers_cons h0 vs v ws hi :
  covers h0 vs (v :: ws) → Forall (fresh (length h0) hi) vs →
  fresh (length h0) hi v ∧ Forall (fresh (length h0) hi) ws.
Proof. intros Hcov Hvs. by apply Forall_cons, Hcov. Qed.

Lemma attr_get_slot k (d : attrs) v : attr_get k d = Some v → v ∈ d.*2.
Proof.
  induction d as [|[k' v'] d IH]; simpl; [done|].
  destruct (decide (k = k')).
  - intros [= ->]. by left.
  - intros H. right. by apply IH.
Qed.

Lemma tracked_setattr h0 vs v name x :
  covers h0 vs [v; x] → tracked h0 vs (setattr v name x) nothing.
Proof.
  intros Hcov h r h' H Hkeep Hvs.
  destruct (covers_cons _ _ _ _ _ Hcov Hvs) as [Hv [Hx _]%Forall_cons].
  apply setattr_inv in H as [->|(a & c & d & k & -> & Ha & ->)].
  - split; [done|]. split; [done|]. destruct r; [constructor|done].
  - split; [|split; [by rewrite length_insert|destruct r; [constructor|done]]].
    apply keeps_insert; [done | simpl in Hv; lia |]. simpl.
    apply attr_set_slots; [|done].
    apply (proj2 Hkeep a _ (proj1 Hv) Ha).
Qed.

Lemma tracked_append h0 vs l x :
  covers h0 vs [l; x] → tracked h0 vs (append l x) nothing.
Proof.
  intros Hcov h r h' H Hkeep Hvs.
  destruct (covers_cons _ _ _ _ _ Hcov Hvs) as [Hl [Hx _]%Forall_cons].
  apply append_inv in H as [->|(a & ws & -> & Ha & ->)].
  - split; [done|]. split; [done|]. destruct r; [constructor|done].
  - split; [|split; [by rewrite length_insert|destruct r; [constructor|done]]].
    apply keeps_insert; [done | simpl in Hl; lia |]. simpl.
    apply Forall_app. split; [|by constructor].
    apply (proj2 Hkeep a _ (proj1 Hl) Ha).
Qed.

Lemma load_inv (a : addr) k (h : heap) v h' :
  load a k h = (Ok v, h') →
  h' = h ∧ ∃ c d, h !! a = Some (OInst c d) ∧ attr_get k d = Some v.
Proof.
  unfold load, get_obj, bind. destruct (h !! a) as [[| |c d]|]; try done.
  destruct (attr_get k d) eqn:Hk; intros [= <- <-]. eauto.
Qed.

(** What a getter returns is [None] or a value of the instance dictionary. *)
Lemma fget_value c name p (a : addr) (h : heap) v h' :
  find_property c name = Some p →
  fget p a h = (Ok v, h') →
  v = VNone ∨ ∃ c' d k, h !! a = Some (OInst c' d) ∧ attr_get k d = Some v.
Proof.
  intros H Hget. apply find_property_listed in H. unfold all_properties in H.
  assert (∀ k, load a k h = (Ok v, h') →
            v = VNone ∨ ∃ c' d k, h !! a = Some (OInst c' d) ∧ attr_get k d = Some v)
    as Hload.
  { intros k (_ & c' & d & ? & ?)%load_inv. right. by exists c', d, k. }
  assert (∀ test field,
            (x <- load a test ;; b <- truthy x ;;
             if negb b then ret VNone else load a field) h = (Ok v, h') →
            v = VNone ∨ ∃ c' d k, h !! a = Some (OInst c' d) ∧ attr_get k d = Some v)
    as Hguard.
  { intros test field Hg.
    apply bind_ok in Hg as (x & h1 & Hx & Hg). apply pure_load in Hx as ->.
    apply bind_ok in Hg as (b & h1 & Hb & Hg). apply pure_truthy in Hb as ->.
    destruct b; simpl in Hg; [by eapply Hload|]. injection Hg as <- <-. by left. }
  repeat (apply elem_of_cons in H as [->|H];
          [simpl in Hget; first [by eapply Hload | by eapply Hguard]|]).
  by apply elem_of_nil in H.
Qed.

Lemma getattr_value v name (h : heap) x h' :
  getattr v name h = (Ok x, h') →
  h' = h ∧ (x = VNone ∨ ∃ a c d k, v = VRef a ∧ h !! a = Some (OInst c d)
                                   ∧ attr_get k d = Some x).
Proof.
  intros H. pose proof (pure_getattr _ _ _ _ _ H) as ->. split; [done|].
  unfold getattr in H. destruct v as [| | | |a]; try done.
  apply bind_ok in H as (o & h1 & Ho & H). apply get_obj_inv in Ho as [-> Ho].
  destruct o as [| |c d]; try done.
  destruct (find_property c name) as [p|] eqn:Hp.
  - destruct (fget_value _ _ _ _ _ _ _ Hp H) as [->|(c' & d' & k & ? & ?)];
      [by left|]. right. by exists a, c', d', k.
  - destruct (attr_get name d) eqn:Hd; [|done]. injection H as <-.
    right. by exists a, c, d, name.
Qed.

Lemma tracked_getattr h0 vs v name :
  covers h0 vs [v] → tracked h0 vs (getattr v name) (λ x, [x]).
Proof.
  intros Hcov h r h' H Hkeep Hvs.
  destruct (covers_cons _ _ _ _ _ Hcov Hvs) as [Hv _].
  pose proof (pure_getattr _ _ _ _ _ H) as ->.
  split; [done|]. split; [done|]. destruct r as [x|]; [|done].
  constructor; [|done].
  apply getattr_value in H as [_ [->|(a & c & d & k & -> & Ha & Hx)]]; [done|].
  apply attr_get_slot in Hx.
  pose proof (proj2 Hkeep a _ (proj1 Hv) Ha) as Hall. simpl in Hall.
  by apply (proj1 (Forall_forall _ _) Hall).
Qed.

Lemma Forall_fresh_chars lo hi s : Forall (fresh lo hi) (chars s).
Proof. induction s; simpl; by constructor. Qed.

Lemma Forall_flat_fst (P : val → Prop) kvs : Forall P (flat kvs) → Forall P (kvs.*1).
Proof.
  induction kvs as [|[k v] kvs IH]; simpl; [done|].
  intros H. apply Forall_cons in H as [_ H]. apply Forall_cons in H as [? H].
  constructor; auto.
Qed.

Lemma tracked_iter h0 vs v :
  covers h0 vs [v] → tracked h0 vs (iter v) (λ xs, xs).
Proof.
  intros Hcov h r h' H Hkeep Hvs.
  destruct (covers_cons _ _ _ _ _ Hcov Hvs) as [Hv _].
  pose proof (pure_iter _ _ _ _ H) as ->.
  split; [done|]. split; [done|]. destruct r as [xs|]; [|done].
  unfold iter in H. destruct v as [| | |s|a]; try done.
  - injection H as <-. apply Forall_fresh_chars.
  - apply bind_ok in H as (o & h1 & Ho & H). apply get_obj_inv in Ho as [-> Ho].
    pose proof (proj2 Hkeep a _ (proj1 Hv) Ho) as Hall.
    destruct o as [ws|kvs|]; try done; injection H as <-; [done|].
    by apply Forall_flat_fst.
Qed.

Lemma tracked_deepcopy h0 vs fuel x :
  tracked h0 vs (deepcopy fuel x) (λ v, [v]).
Proof.
  intros h r h' H [Hp Hc] Hvs.
  destruct (deepcopy_ok (length h0) _ _ _ _ _ H (prefix_length _ _ Hp) Hc)
    as (Hp' & Hc' & Hr).
  split; [split; [by etrans | done]|]. split; [by apply prefix_length|].
  destruct r; [by constructor | done].
Qed.

Lemma tracked_join h0 vs sep ws : tracked h0 vs (join sep ws) (λ v, [v]).
Proof.
  intros h r h' H Hkeep Hvs. pose proof (pure_join _ _ _ _ _ H) as ->.
  split; [done|]. split; [done|]. destruct r as [v|]; [|done].
  apply join_inv in H as (_ & ss & _ & ->). by constructor.
Qed.

Lemma tracked_for_each {A} h0 vs (xs : list A) body :
  (∀ x, x ∈ xs → tracked h0 vs (body x) nothing) →
  tracked h0 vs (for_each xs body) nothing.
Proof.
  induction xs as [|x xs IH]; intros Hb; simpl.
  - apply tracked_ret. intros hi _. constructor.
  - eapply tracked_bind; [apply Hb; by left|]. intros u. unfold nothing. simpl.
    apply IH. intros x' Hx'. apply Hb. by right.
Qed.

Lemma tracked_fold_m {A S} h0 vs (xs : list A) (s : S) body (Q : S → list val) :
  (∀ s x, tracked h0 (Q s ++ vs) (body s x) Q) →
  tracked h0 (Q s ++ vs) (fold_m xs s body) Q.
Proof.
  intros Hb. revert s. induction xs as [|x xs IH]; intros s; simpl.
  - apply tracked_ret. intros hi (? & _)%Forall_app. done.
  - eapply tracked_bind; [apply Hb|]. intros s'.
    eapply tracked_weaken; [apply (IH s') | | ].
    + intros hi (? & (_ & ?)%Forall_app)%Forall_app. by apply Forall_app.
    + intros a hi (? & _)%Forall_app. done.
Qed.

(** Goals [covers h0 vs ws]: split the assumption on [vs] into its items,
    use the [covers] facts at hand, and find each item of [ws]. *)
Ltac split_fresh :=
  repeat match goal with
    | H : Forall _ (_ :: _) |- _ => apply Forall_cons in H as [? H]
    | H : Forall _ (_ ++ _) |- _ => apply Forall_app in H as [? ?]
    | H : Forall _ [] |- _ => clear H
    end.

Ltac solve_covers :=
  let hi := fresh "hi" in
  let H := fresh "Hvs" in
  intros hi H; unfold nothing, slots_of in *; simpl in *;
  split_fresh;
  repeat match goal with
    | Hc : covers _ ?vs _, Hv : Forall (fresh _ hi) ?vs |- _ =>
        let Hn := fresh in
        pose proof (Hc hi Hv) as Hn; clear Hc; simpl in Hn
    end;
  split_fresh;
  repeat first
    [ apply Forall_nil_2
    | apply Forall_cons; split
    | apply Forall_app; split ];
  first
    [ done
    | assumption
    | match goal with
      | Hin : ?x ∈ ?xs, Hall : Forall _ ?xs |- _ =>
          exact (proj1 (Forall_forall _ _) Hall x Hin)
      end ].

Lemma tracked_rename_items h0 vs items x :
  covers h0 vs [items] → tracked h0 vs (rename_items items x) nothing.
Proof.
  intros Hcov. unfold rename_items.
  eapply tracked_bind; [by apply tracked_iter|]. intros ms.
  apply tracked_for_each. intros [y m] Hin. simpl.
  assert (m ∈ ms) as Hm.
  { apply elem_of_lookup_imap in Hin as (i & m' & [= _ ->] & Hi).
    by eapply list_elem_of_lookup_2. }
  eapply tracked_bind; [apply tracked_getattr; solve_covers|]. intros name.
  eapply tracked_bind; [apply tracked_join|]. intros name'.
  apply tracked_setattr. solve_covers.
Qed.

Lemma tracked_copy_renamed h0 vs fuel arg x :
  tracked h0 vs (copy_renamed fuel arg x) (λ c, [c]).
Proof.
  unfold copy_renamed.
  eapply tracked_bind; [apply tracked_deepcopy|]. intros c.
  eapply tracked_bind; [apply tracked_getattr; solve_covers|]. intros name.
  eapply tracked_bind; [apply tracked_join|]. intros name'.
  eapply tracked_bind; [apply tracked_setattr; solve_covers|]. intros u.
  apply tracked_ret. solve_covers.
Qed.

Lemma tracked_copy_renamed_items h0 vs fuel arg x :
  tracked h0 vs (copy_renamed_items fuel arg x) (λ c, [c]).
Proof.
  unfold copy_renamed_items.
  eapply tracked_bind; [apply tracked_deepcopy|]. intros c.
  eapply tracked_bind; [apply tracked_rename_items; solve_covers|]. intros u.
  apply tracked_ret. solve_covers.
Qed.

Lemma tracked_wire h0 vs p mA mB :
  covers h0 vs [p; mA; mB] → tracked h0 vs (wire p mA mB) nothing.
Proof.
  intros Hcov. unfold wire.
  eapply tracked_bind; [apply tracked_pure, pure_is_listM|]. intros a_list.
  eapply tracked_bind.
  { instantiate (1 := nothing). destruct a_list.
    - apply tracked_setattr. solve_covers.
    - eapply tracked_bind; [apply tracked_getattr; solve_covers|].
      intros inputs. apply tracked_append. solve_covers. }
  intros u.
  eapply tracked_bind; [apply tracked_pure, pure_is_listM|]. intros b_list.
  destruct b_list.
  - eapply tracked_bind; [apply tracked_setattr; solve_covers|]. intros u'.
    eapply tracked_bind; [apply tracked_iter; solve_covers|].
    intros ms. apply tracked_for_each. intros material Hin.
    apply tracked_setattr. solve_covers.
  - eapply tracked_bind; [apply tracked_getattr; solve_covers|].
    intros outputs.
    eapply tracked_bind; [apply tracked_append; solve_covers|].
    intros u'. apply tracked_setattr. solve_covers.
Qed.

Lemma tracked_for_in h0 vs fuel l body :
  covers h0 vs [l] →
  (∀ p, tracked h0 (p :: vs) (body p) nothing) →
  ∀ i, tracked h0 vs (for_in fuel l i body) nothing.
Proof.
  intros Hl Hbody. induction fuel as [|fuel IH]; intros i; simpl.
  - intros h r h' [= <- <-] Hk Hvs. done.
  - eapply tracked_bind; [by apply tracked_iter|]. intros items.
    destruct (items !! i) as [p|] eqn:Hp.
    + apply list_elem_of_lookup_2 in Hp.
      eapply tracked_bind.
      { eapply tracked_weaken; [apply (Hbody p) | solve_covers |].
        intros u. solve_covers. }
      intros u. eapply tracked_weaken; [apply (IH (S i)) | solve_covers |].
      intros u'. solve_covers.
    + apply tracked_ret. solve_covers.
Qed.

Lemma covers_fill_material h0 vs w c :
  covers h0 vs (c :: slots_of w) → covers h0 vs (slots_of (fill_material w c)).
Proof.
  unfold fill_material, slots_of. intros Hcov hi H. apply Hcov in H.
  apply Forall_cons in H as [Hc [HA [Hp [HB _]%Forall_cons]%Forall_cons]%Forall_cons].
  destruct (materialA w) eqn:E; simpl;
    repeat (apply Forall_cons; split); first [done | assumption].
Qed.

Lemma covers_fill_process h0 vs w c :
  covers h0 vs (c :: slots_of w) → covers h0 vs (slots_of (fill_process w c)).
Proof. intros Hcov. unfold fill_process. solve_covers. Qed.

(** One chain element: the window keeps referring to copies only, and only
    copies are written. *)
Lemma tracked_place h0 fuel x w arg :
  tracked h0 (slots_of w) (place fuel x w arg) slots_of.
Proof.
  unfold place.
  eapply tracked_bind; [apply tracked_pure, pure_is_listM|]. intros a_list.
  eapply tracked_bind; [apply tracked_pure; destruct a_list; solve_pure|].
  intros nonempty.
  eapply tracked_bind.
  { instantiate (1 := slots_of). destruct nonempty.
    - eapply tracked_bind; [apply tracked_pure, pure_iter|]. intros items.
      destruct items as [|first items]; [apply tracked_ret; solve_covers|].
      eapply tracked_bind; [apply tracked_pure, pure_isinstanceM|].
      intros material. destruct material.
      + eapply tracked_bind; [apply tracked_copy_renamed_items|]. intros c.
        apply tracked_ret, covers_fill_material. solve_covers.
      + eapply tracked_bind; [apply tracked_pure, pure_isinstanceM|].
        intros proc. destruct proc; [|apply tracked_ret; solve_covers].
        eapply tracked_bind; [apply tracked_copy_renamed_items|]. intros c.
        apply tracked_ret, covers_fill_process. solve_covers.
    - apply tracked_ret. solve_covers. }
  intros w1.
  eapply tracked_bind; [apply tracked_pure, pure_isinstanceM|]. intros material.
  eapply tracked_bind.
  { instantiate (1 := slots_of). destruct material.
    - eapply tracked_bind; [apply tracked_copy_renamed|]. intros c.
      apply tracked_ret, covers_fill_material. solve_covers.
    - eapply tracked_bind; [apply tracked_pure, pure_isinstanceM|].
      intros proc. destruct proc; [|apply tracked_ret; solve_covers].
      eapply tracked_bind; [apply tracked_copy_renamed|]. intros c.
      apply tracked_ret, covers_fill_process. solve_covers. }
  intros w2.
  destruct (negb (is_None (materialA w2)) && negb (is_None (materialB w2))
            && negb (is_None (process w2))); [|apply tracked_ret; solve_covers].
  eapply tracked_bind; [apply tracked_pure, pure_is_listM|]. intros p_list.
  eapply tracked_bind.
  { instantiate (1 := nothing). destruct p_list.
    - eapply tracked_bind.
      { apply tracked_for_in; [solve_covers|]. intros p.
        apply tracked_wire. solve_covers. }
      intros u. apply tracked_ret. solve_covers.
    - eapply tracked_bind; [apply tracked_wire; solve_covers|].
      intros u. apply tracked_ret. solve_covers. }
  intros seq'. apply tracked_ret. solve_covers.
Qed.

(** Any run of [batch_create_assays], whatever its outcome, only extends the
    store it starts from. *)
Lemma batch_create_assays_keeps fuel args kwargs (h : heap) r h' :
  batch_create_assays fuel args kwargs h = (r, h') → keeps h h'.
Proof.
  intros H.
  assert (tracked h [] (batch_create_assays fuel args kwargs) nothing) as Ht.
  { unfold batch_create_assays.
    eapply tracked_bind; [apply tracked_pure, pure_range|]. intros xs.
    eapply tracked_bind.
    { instantiate (1 := slots_of).
      eapply tracked_weaken;
        [apply (tracked_fold_m h [] xs _ _ slots_of) | solve_covers |].
      - intros w x.
        eapply tracked_weaken;
          [apply (tracked_fold_m h [] args w (place fuel x) slots_of)
          | solve_covers |].
        + intros w' arg.
          eapply tracked_weaken; [apply tracked_place | solve_covers |].
          intros w''. solve_covers.
        + intros w'. solve_covers.
      - intros w. solve_covers. }
    intros w. apply tracked_ret. solve_covers. }
  by destruct (Ht h r h' H (keeps_refl h) (Forall_nil_2 _)) as (? & _).
Qed.

Lemma batch_create_assays_extends fuel args kwargs (h : heap) r h' :
  batch_create_assays fuel args kwargs h = (r, h') → h `prefix_of` h'.
Proof. intros H. by destruct (batch_create_assays_keeps _ _ _ _ _ _ H). Qed.

(** ** Batch creation leaves the prototypes alone *)







